(** * Sudoku solver: the reply normalizer and the grid renderer of [app.py]

    The program sends a picture to a remote model and receives free text.
    [clean_json_response] cuts that text down with three [re.sub] calls,
    [detect_and_solve_sudoku] hands the result to [json.loads], and [main]
    shows the grids with [display_grids] / [format_grid].

    Python strings are sequences of code points, so a text is a list of
    code points ([N]).  The two library functions the code calls, [re.sub]
    and [json.loads], are embedded as executable functions: a backtracking
    matcher with Python's priorities (leftmost start, first alternative,
    greedy star) and the decoder of the [json] module. *)

From Stdlib Require Import String Ascii List NArith ZArith Bool Arith Lia.
From Stdlib Require Import DecimalString.
From Stdlib Require DecimalZ DecimalPos.
Import ListNotations.

Set Implicit Arguments.

(** ** Texts *)

Definition char : Type := N.
Definition text : Type := list char.

(** A text written as a Rocq string literal, one code point per character. *)
Definition lit (s : string) : text := map N_of_ascii (list_ascii_of_string s).

(** The double quote is code point 34.  JSON texts are full of them; in a
    literal passed to [q] every apostrophe stands for a double quote. *)
Definition dquote : char := 34%N.
Definition apostrophe : char := 39%N.

Definition q (s : string) : text :=
  map (fun c => if N.eqb c apostrophe then dquote else c) (lit s).

Definition ch (a : ascii) : char := N_of_ascii a.

Module Re.

(** ** Regular expressions, as much of [re] as the three patterns use *)

Inductive regex : Type :=
| Eps
| Chr (c : char)
| Cls (p : char -> bool)
| Seq (r1 r2 : regex)
| Alt (r1 r2 : regex)
| Star (r : regex)
| Bol
| Eol.

(** A position in the subject: its index and the text from there on. *)
Record cursor : Type := Cursor { pos : nat; rest : text }.

(** [$] without [re.MULTILINE]: at the end of the subject, or just before
    a line feed that is its last character. *)
Definition at_end (s : text) : bool :=
  match s with
  | [] => true
  | [c] => N.eqb c 10
  | _ => false
  end.

(** The loop of a starred pattern: one more iteration of [body] is tried
    before stopping, and an iteration that consumes nothing is not
    repeated.  [n] bounds the iterations by the length of the text left. *)
Fixpoint star_loop
  (body : cursor -> (cursor -> option cursor) -> option cursor)
  (k : cursor -> option cursor) (n : nat) (c : cursor) {struct n}
  : option cursor :=
  match n with
  | O => k c
  | S n' =>
      match body c (fun c' =>
              if Nat.ltb (pos c) (pos c') then star_loop body k n' c'
              else None) with
      | Some e => Some e
      | None => k c
      end
  end.

(** The matcher, in continuation-passing style: [k] is what must still
    match after [r].  [Alt] tries its left branch first; [Star] is greedy. *)
Fixpoint exec (r : regex) (c : cursor) (k : cursor -> option cursor)
  : option cursor :=
  match r with
  | Eps => k c
  | Chr a =>
      match rest c with
      | x :: t => if N.eqb x a then k (Cursor (S (pos c)) t) else None
      | [] => None
      end
  | Cls p =>
      match rest c with
      | x :: t => if p x then k (Cursor (S (pos c)) t) else None
      | [] => None
      end
  | Seq r1 r2 => exec r1 c (fun c' => exec r2 c' k)
  | Alt r1 r2 =>
      match exec r1 c k with
      | Some e => Some e
      | None => exec r2 c k
      end
  | Star r1 => star_loop (exec r1) k (length (rest c)) c
  | Bol => if Nat.eqb (pos c) 0 then k c else None
  | Eol => if at_end (rest c) then k c else None
  end.

(** One attempt at one start position.  With [must_advance] an empty match
    is refused (the flag [re.sub] sets after an empty match). *)
Definition match_at (r : regex) (must_advance : bool) (c : cursor)
  : option cursor :=
  exec r c (fun e =>
    if must_advance && Nat.eqb (pos e) (pos c) then None else Some e).

(** The search: the first start position from [p] on at which the pattern
    matches.  It returns the text skipped before the match and the cursor
    at the end of the match.  [must_advance] holds for the first attempt
    only. *)
Fixpoint search (r : regex) (must_advance : bool) (p : nat) (s : text)
  : option (text * cursor) :=
  match match_at r must_advance (Cursor p s) with
  | Some e => Some ([], e)
  | None =>
      match s with
      | [] => None
      | x :: t =>
          match search r false (S p) t with
          | Some (skipped, e) => Some (x :: skipped, e)
          | None => None
          end
      end
  end.

(** [re.sub(pattern, '', s)]: every match, found left to right without
    overlap, is deleted; the text between matches is kept. *)
Fixpoint sub_loop (fuel : nat) (r : regex) (must_advance : bool)
  (p : nat) (s : text) : text :=
  match fuel with
  | O => s
  | S fuel' =>
      match search r must_advance p s with
      | None => s
      | Some (skipped, e) =>
          skipped ++
          sub_loop fuel' r (Nat.eqb (pos e) (p + length skipped))
                   (pos e) (rest e)
      end
  end.

Definition sub_empty (r : regex) (s : text) : text :=
  sub_loop (2 * length s + 2) r false 0 s.

(** A literal string as a pattern. *)
Fixpoint str (s : text) : regex :=
  match s with
  | [] => Eps
  | c :: t => Seq (Chr c) (str t)
  end.

(** [\s] on a [str] pattern: the code points Python calls whitespace. *)
Definition is_space (c : char) : bool :=
  (N.leb 9 c && N.leb c 13) || (N.leb 28 c && N.leb c 32)
  || N.eqb c 133 || N.eqb c 160 || N.eqb c 5760
  || (N.leb 8192 c && N.leb c 8202)
  || N.eqb c 8232 || N.eqb c 8233 || N.eqb c 8239 || N.eqb c 8287
  || N.eqb c 12288.

Definition is_not (a : char) (c : char) : bool := negb (N.eqb c a).

End Re.

(** ** clean_json_response *)

Definition lbrace : char := 123%N.
Definition rbrace : char := 125%N.
Definition backtick : char := 96%N.

(** r'```json\s*|\s*```' *)
Definition fence_re : Re.regex :=
  Re.Alt (Re.Seq (Re.str (lit "```json")) (Re.Star (Re.Cls Re.is_space)))
         (Re.Seq (Re.Star (Re.Cls Re.is_space)) (Re.str (lit "```"))).

(** r'^[^{]*' *)
Definition before_brace_re : Re.regex :=
  Re.Seq Re.Bol (Re.Star (Re.Cls (Re.is_not lbrace))).

(** r'[^}]*$' *)
Definition after_brace_re : Re.regex :=
  Re.Seq (Re.Star (Re.Cls (Re.is_not rbrace))) Re.Eol.

Definition strip_fences (response_text : text) : text :=
  Re.sub_empty fence_re response_text.

Definition clean_json_response (response_text : text) : text :=
  let json_text := Re.sub_empty fence_re response_text in
  let json_text := Re.sub_empty before_brace_re json_text in
  let json_text := Re.sub_empty after_brace_re json_text in
  json_text.

(** ** What the two brace patterns keep (used in the statements below) *)

Fixpoint drop_while (p : char -> bool) (s : text) : text :=
  match s with
  | x :: t => if p x then drop_while p t else s
  | [] => []
  end.

Fixpoint take_while (p : char -> bool) (s : text) : text :=
  match s with
  | x :: t => if p x then x :: take_while p t else []
  | [] => []
  end.

Definition occurs (a : char) (s : text) : bool := existsb (N.eqb a) s.

(** The text from its first [a] on; empty when [a] does not occur. *)
Definition from_first (a : char) (s : text) : text :=
  drop_while (Re.is_not a) s.

(** The text up to and including its last [a]; empty when [a] does not
    occur. *)
Fixpoint through_last (a : char) (s : text) : text :=
  match s with
  | x :: t => if occurs a s then x :: through_last a t else []
  | [] => []
  end.

(** Greedy iteration of a class, written by recursion on the text: take
    one more character while it is in the class, and fall back to the
    shorter match when the continuation fails. *)
Fixpoint greedy (p : char -> bool) (n : nat) (s : text)
  (k : Re.cursor -> option Re.cursor) : option Re.cursor :=
  match s with
  | x :: t =>
      if p x then
        match greedy p (S n) t k with
        | Some e => Some e
        | None => k (Re.Cursor n s)
        end
      else k (Re.Cursor n s)
  | [] => k (Re.Cursor n [])
  end.

(** ** What the fence pattern deletes (used in the statements below) *)

Fixpoint starts_with (l s : text) : bool :=
  match l, s with
  | [], _ => true
  | a :: l', x :: s' => N.eqb x a && starts_with l' s'
  | _ :: _, [] => false
  end.

(** One match of the fence pattern at the head of [s], if there is one:
    the text left after it.  The first alternative has priority. *)
Definition fence_match (s : text) : option text :=
  if starts_with (lit "```json") s then
    Some (drop_while Re.is_space (skipn 7 s))
  else
    let s2 := drop_while Re.is_space s in
    if starts_with (lit "```") s2 then Some (skipn 3 s2) else None.

(** [strips s out]: deleting the fence matches of [s] from left to right,
    without overlap, leaves [out]. *)
Inductive strips : text -> text -> Prop :=
| strips_nil : strips [] []
| strips_fence s r out :
    fence_match s = Some r -> strips r out -> strips s out
| strips_keep x t out :
    fence_match (x :: t) = None -> strips t out -> strips (x :: t) (x :: out).

(** Three backticks in a row somewhere in the text. *)
Fixpoint has_fence (s : text) : bool :=
  match s with
  | x :: t => starts_with (lit "```") s || has_fence t
  | [] => false
  end.

(** ** json.loads

    The decoder of the [json] module (the C scanner, which the module
    uses when it is available; the Python fallback decodes the same
    language).  The model has the two outcomes of the decoder proper: a
    value, or [JSONDecodeError].  The limits of the interpreter are
    outside it: on nesting deeper than the recursion limit allows
    [json.loads] raises [RecursionError], and on an integer of more than
    4300 digits [ValueError]; here integers are unbounded and nesting is
    bounded by the length of the text only.  What is stated of
    [json_loads] below is stated of texts within those limits. *)

#[local] Unset Elimination Schemes.
Inductive json : Type :=
| JNull
| JBool (b : bool)
| JInt (z : Z)
| JFloat (lexeme : text)
| JString (s : text)
| JArray (items : list json)
| JObject (members : list (text * json)).
#[local] Set Elimination Schemes.

(** [JFloat] keeps a number with a fraction or an exponent, and the
    constants [NaN], [Infinity] and [-Infinity], as they are written. *)

(** The messages of [json.JSONDecodeError], without the position. *)
Inductive decode_error : Type :=
| ExpectingValue
| ExpectingPropertyName
| ExpectingColon
| ExpectingComma
| ExtraData
| UnterminatedString
| InvalidControlCharacter
| InvalidEscape
| InvalidUnicodeEscape
| UnexpectedBOM.

Module Json.

Definition backslash : char := 92%N.
Definition lbracket : char := 91%N.
Definition rbracket : char := 93%N.
Definition comma : char := 44%N.
Definition colon : char := 58%N.
Definition minus : char := 45%N.
Definition plus : char := 43%N.
Definition dot : char := 46%N.
Definition zero : char := 48%N.

(** Whitespace between tokens: space, tab, line feed, carriage return. *)
Definition is_ws (c : char) : bool :=
  N.eqb c 32 || N.eqb c 9 || N.eqb c 10 || N.eqb c 13.

Definition skip_ws (s : text) : text := drop_while is_ws s.

Definition is_digit (c : char) : bool := N.leb 48 c && N.leb c 57.

Definition is_digit19 (c : char) : bool := N.leb 49 c && N.leb c 57.

Definition hex_value (c : char) : option N :=
  if N.leb 48 c && N.leb c 57 then Some (c - 48)%N
  else if N.leb 97 c && N.leb c 102 then Some (c - 87)%N
  else if N.leb 65 c && N.leb c 70 then Some (c - 55)%N
  else None.

Definition hex4 (h1 h2 h3 h4 : char) : option N :=
  match hex_value h1, hex_value h2, hex_value h3, hex_value h4 with
  | Some a, Some b, Some c, Some d =>
      Some (((a * 16 + b) * 16 + c) * 16 + d)%N
  | _, _, _, _ => None
  end.

Definition is_high_surrogate (c : N) : bool :=
  N.leb 55296 c && N.leb c 56319.

Definition is_low_surrogate (c : N) : bool :=
  N.leb 56320 c && N.leb c 57343.

Definition join_surrogates (hi lo : N) : N :=
  (65536 + ((hi - 55296) * 1024 + (lo - 56320)))%N.

(** The one-letter escapes after a backslash. *)
Definition simple_escape (e : char) : option char :=
  if N.eqb e dquote then Some dquote
  else if N.eqb e backslash then Some backslash
  else if N.eqb e 47 then Some 47%N
  else if N.eqb e 98 then Some 8%N
  else if N.eqb e 102 then Some 12%N
  else if N.eqb e 110 then Some 10%N
  else if N.eqb e 114 then Some 13%N
  else if N.eqb e 116 then Some 9%N
  else None.

(** [scanstring] in strict mode, from just after the opening quote: the
    decoded string and the text after the closing quote.  [acc] holds the
    decoded characters in reverse. *)
Fixpoint scanstring (s : text) (acc : text) : decode_error + text * text :=
  match s with
  | [] => inl UnterminatedString
  | c :: t =>
      if N.eqb c dquote then inr (rev acc, t)
      else if N.eqb c backslash then
        match t with
        | [] => inl UnterminatedString
        | e :: t1 =>
            if N.eqb e 117 then
              match t1 with
              | h1 :: h2 :: h3 :: h4 :: ((_ :: _) as t5) =>
                  match hex4 h1 h2 h3 h4 with
                  | None => inl InvalidUnicodeEscape
                  | Some c1 =>
                      if is_high_surrogate c1 then
                        match t5 with
                        | b :: u :: g1 :: g2 :: g3 :: g4 :: ((_ :: _) as t11) =>
                            if N.eqb b backslash && N.eqb u 117 then
                              match hex4 g1 g2 g3 g4 with
                              | None => inl InvalidUnicodeEscape
                              | Some c2 =>
                                  if is_low_surrogate c2
                                  then scanstring t11 (join_surrogates c1 c2 :: acc)
                                  else scanstring t5 (c1 :: acc)
                              end
                            else scanstring t5 (c1 :: acc)
                        | _ => scanstring t5 (c1 :: acc)
                        end
                      else scanstring t5 (c1 :: acc)
                  end
              | _ => inl InvalidUnicodeEscape
              end
            else
              match simple_escape e with
              | Some x => scanstring t1 (x :: acc)
              | None => inl InvalidEscape
              end
        end
      else if N.leb c 31 then inl InvalidControlCharacter
      else scanstring t (c :: acc)
  end.

(** [int] of a run of decimal digits. *)
Definition digits_value (ds : text) : Z :=
  fold_left (fun acc d => (10 * acc + (Z.of_N d - 48))%Z) ds 0%Z.

(** The parts of a number, each read from the head of the text and
    returned with the text after it: an optional minus sign; then a zero,
    or a run of digits that does not start with zero; then an optional
    fraction (a dot and at least one digit); then an optional exponent
    (e or E, an optional sign, at least one digit). *)
Definition read_sign (s : text) : text * text :=
  match s with
  | c :: t => if N.eqb c minus then ([c], t) else ([], s)
  | [] => ([], s)
  end.

Definition read_int (s : text) : option (text * text) :=
  match s with
  | d :: t =>
      if is_digit19 d then
        Some (d :: take_while is_digit t, drop_while is_digit t)
      else if N.eqb d zero then Some ([d], t)
      else None
  | [] => None
  end.

Definition read_frac (s : text) : text * text :=
  match s with
  | p :: f :: t =>
      if N.eqb p dot && is_digit f then
        (p :: f :: take_while is_digit t, drop_while is_digit t)
      else ([], s)
  | _ => ([], s)
  end.

Definition read_exp (s : text) : text * text :=
  match s with
  | e :: t =>
      if N.eqb e 101 || N.eqb e 69 then
        let (sg, t1) :=
          match t with
          | c :: t' =>
              if N.eqb c minus || N.eqb c plus then ([c], t') else ([], t)
          | [] => ([], t)
          end in
        match take_while is_digit t1 with
        | [] => ([], s)
        | es => (e :: sg ++ es, drop_while is_digit t1)
        end
      else ([], s)
  | [] => ([], s)
  end.

(** The number at the head of the text, if there is one: an integer when
    it has neither fraction nor exponent, a float otherwise. *)
Definition match_number (s : text) : option (json * text) :=
  let (sign, s1) := read_sign s in
  match read_int s1 with
  | None => None
  | Some (ds, s2) =>
      let (frac, s3) := read_frac s2 in
      let (exp, s4) := read_exp s3 in
      match frac, exp with
      | [], [] =>
          Some (JInt (match sign with
                      | [] => digits_value ds
                      | _ => - digits_value ds
                      end), s4)
      | _, _ => Some (JFloat (sign ++ ds ++ frac ++ exp), s4)
      end
  end.

Fixpoint text_eqb (a b : text) : bool :=
  match a, b with
  | [], [] => true
  | x :: a', y :: b' => N.eqb x y && text_eqb a' b'
  | _, _ => false
  end.

(** [d[key] = value] on a dict, whose keys keep the order in which they
    were first set. *)
Fixpoint dict_set (key : text) (v : json) (d : list (text * json))
  : list (text * json) :=
  match d with
  | [] => [(key, v)]
  | (k, w) :: d' =>
      if text_eqb key k then (key, v) :: d' else (k, w) :: dict_set key v d'
  end.

(** A decoding step either runs out of fuel ([None]), fails with a
    message, or yields a value and the text after it. *)
Definition step (A : Type) : Type := option (decode_error + A * text).

Definition fail {A : Type} (e : decode_error) : step A := Some (inl e).
Definition yield {A : Type} (a : A) (r : text) : step A := Some (inr (a, r)).

(** [scan_once] at the head of the text, with the loops of
    [_parse_array] and [_parse_object]: [array_items] stands where an
    item must start, [object_members] where a key must start. *)
Fixpoint scan_once (fuel : nat) (s : text) {struct fuel} : step json :=
  match fuel with
  | O => None
  | S f =>
      match s with
      | [] => fail ExpectingValue
      | c :: t =>
          if N.eqb c dquote then
            match scanstring t [] with
            | inl e => fail e
            | inr (str, r) => yield (JString str) r
            end
          else if N.eqb c lbrace then
            match skip_ws t with
            | c1 :: t1 =>
                if N.eqb c1 rbrace then yield (JObject []) t1
                else object_members f (skip_ws t) []
            | [] => object_members f [] []
            end
          else if N.eqb c lbracket then
            match skip_ws t with
            | c1 :: t1 =>
                if N.eqb c1 rbracket then yield (JArray []) t1
                else array_items f (skip_ws t) []
            | [] => array_items f [] []
            end
          else if starts_with (lit "null") s then yield JNull (skipn 4 s)
          else if starts_with (lit "true") s then yield (JBool true) (skipn 4 s)
          else if starts_with (lit "false") s then
            yield (JBool false) (skipn 5 s)
          else if starts_with (lit "NaN") s then
            yield (JFloat (lit "NaN")) (skipn 3 s)
          else if starts_with (lit "Infinity") s then
            yield (JFloat (lit "Infinity")) (skipn 8 s)
          else if starts_with (lit "-Infinity") s then
            yield (JFloat (lit "-Infinity")) (skipn 9 s)
          else
            match match_number s with
            | Some (v, r) => yield v r
            | None => fail ExpectingValue
            end
      end
  end

with array_items (fuel : nat) (s : text) (acc : list json) {struct fuel}
  : step json :=
  match fuel with
  | O => None
  | S f =>
      match scan_once f s with
      | None => None
      | Some (inl e) => fail e
      | Some (inr (v, r)) =>
          match skip_ws r with
          | c :: t =>
              if N.eqb c rbracket then yield (JArray (rev (v :: acc))) t
              else if N.eqb c comma then array_items f (skip_ws t) (v :: acc)
              else fail ExpectingComma
          | [] => fail ExpectingComma
          end
      end
  end

with object_members (fuel : nat) (s : text) (acc : list (text * json))
  {struct fuel} : step json :=
  match fuel with
  | O => None
  | S f =>
      match s with
      | c :: t =>
          if N.eqb c dquote then
            match scanstring t [] with
            | inl e => fail e
            | inr (key, r) =>
                match skip_ws r with
                | c2 :: t2 =>
                    if N.eqb c2 colon then
                      match scan_once f (skip_ws t2) with
                      | None => None
                      | Some (inl e) => fail e
                      | Some (inr (v, r2)) =>
                          let acc' := dict_set key v acc in
                          match skip_ws r2 with
                          | c3 :: t3 =>
                              if N.eqb c3 rbrace then yield (JObject acc') t3
                              else if N.eqb c3 comma then
                                object_members f (skip_ws t3) acc'
                              else fail ExpectingComma
                          | [] => fail ExpectingComma
                          end
                      end
                    else fail ExpectingColon
                | [] => fail ExpectingColon
                end
            end
          else fail ExpectingPropertyName
      | [] => fail ExpectingPropertyName
      end
  end.

(** [JSONDecoder.decode]: whitespace, one value, whitespace, the end. *)
Definition decode (s : text) : decode_error + json :=
  match scan_once (2 * length s + 1) (skip_ws s) with
  | Some (inr (v, r)) =>
      match skip_ws r with
      | [] => inr v
      | _ :: _ => inl ExtraData
      end
  | Some (inl e) => inl e
  | None => inl ExpectingValue
  end.

End Json.

(** [json.loads] on a [str]. *)
Definition json_loads (s : text) : decode_error + json :=
  if starts_with [65279%N] s then inl UnexpectedBOM else Json.decode s.

(** ** Python values and exceptions *)

(** [bool(v)].  A float is false when it is zero: when its digits are all
    zero, or when the number is so small that it rounds to zero (at most
    2^-1075, half of the smallest positive double). *)
Definition float_is_zero (lexeme : text) : bool :=
  let body :=
    match lexeme with
    | c :: t => if N.eqb c Json.minus then t else lexeme
    | [] => lexeme
    end in
  match take_while Json.is_digit body with
  | [] => false
  | ds =>
      let r1 := drop_while Json.is_digit body in
      let '(fs, r2) :=
        match r1 with
        | c :: t =>
            if N.eqb c Json.dot
            then (take_while Json.is_digit t, drop_while Json.is_digit t)
            else ([], r1)
        | [] => ([], r1)
        end in
      let ex :=
        match r2 with
        | _ :: c :: t =>
            if N.eqb c Json.minus then (- Json.digits_value t)%Z
            else if N.eqb c Json.plus then Json.digits_value t
            else Json.digits_value (c :: t)
        | _ => 0%Z
        end in
      let m := Json.digits_value (ds ++ fs) in
      let e := (ex - Z.of_nat (length fs))%Z in
      Z.eqb m 0 ||
      (Z.ltb e 0 && Z.leb (m * 2 ^ 1075) (10 ^ (- e)))%Z
  end.

Definition truthy (v : json) : bool :=
  match v with
  | JNull => false
  | JBool b => b
  | JInt z => negb (Z.eqb z 0)
  | JFloat lexeme => negb (float_is_zero lexeme)
  | JString s => negb (Nat.eqb (length s) 0)
  | JArray items => negb (Nat.eqb (length items) 0)
  | JObject members => negb (Nat.eqb (length members) 0)
  end.

Fixpoint dict_get (key : text) (d : list (text * json)) : option json :=
  match d with
  | [] => None
  | (k, v) :: d' => if Json.text_eqb key k then Some v else dict_get key d'
  end.

(** The exceptions the solve action can meet.  What the request raises
    is kept with its text; the others by their class. *)
Inductive exn : Type :=
| ApiException (msg : text)
| TypeError
| KeyError (key : text).

(** ** The effects of the solve action *)

(** The two formatted messages of [detect_and_solve_sudoku], by their
    fixed part and the exception they print. *)
Inductive message : Type :=
| FailedToParse (e : decode_error)
| ErrorProcessing (e : exn).

(** One request sent to the remote model, or one call of Streamlit. *)
Inductive effect : Type :=
| Request
| St_spinner (t : text)
| St_error (m : message)
| St_text (t : text)
| St_success (t : text)
| St_columns (n : nat)
| St_subheader (t : text)
| In_column (i : nat) (c : effect).

(** What a call of the program ends with.  [Unmodelled] stands for the
    values [format_grid] is not modelled on (see [as_grid]). *)
Inductive outcome (A : Type) : Type :=
| Returned (a : A)
| Raised (e : exn)
| Unmodelled.

Arguments Returned {A} a.
Arguments Raised {A} e.
Arguments Unmodelled {A}.

(** A computation with effects: from the effects so far to its outcome
    and the effects by its end. *)
Definition ui (A : Type) : Type := list effect -> outcome A * list effect.

Definition ret {A : Type} (a : A) : ui A := fun tr => (Returned a, tr).

Definition raise {A : Type} (e : exn) : ui A := fun tr => (Raised e, tr).

Definition unmodelled {A : Type} : ui A := fun tr => (Unmodelled, tr).

Definition bind {A B : Type} (c : ui A) (k : A -> ui B) : ui B :=
  fun tr =>
    match c tr with
    | (Returned a, tr') => k a tr'
    | (Raised e, tr') => (Raised e, tr')
    | (Unmodelled, tr') => (Unmodelled, tr')
    end.

Notation "x <- c ;; k" := (bind c (fun x => k))
  (at level 61, c at next level, right associativity).
Notation "c ;; k" := (bind c (fun _ => k))
  (at level 61, right associativity).

Definition st (c : effect) : ui unit := fun tr => (Returned tt, tr ++ [c]).

(** [try: body except Exception as e: handler(e)] *)
Definition try_except {A : Type} (body : ui A) (handler : exn -> ui A) : ui A :=
  fun tr =>
    match body tr with
    | (Raised e, tr') => handler e tr'
    | other => other
    end.

(** [with col: ...]: the calls of the block land in column [i]. *)
Definition in_column {A : Type} (i : nat) (block : ui A) : ui A :=
  fun tr =>
    let '(o, tr') := block [] in (o, tr ++ map (In_column i) tr').

(** ** detect_and_solve_sudoku *)

(** What a request to the remote model meets: an exception that the
    client does not retry (a refused key, a bad request), the content of
    the first choice, which is a string or [None], or a failure that the
    client retries (no connection, a timeout, a status 408, 409, 429 or
    5xx) together with what the request meets when it is sent again. *)
Inductive api_reply : Type :=
| Api_raises (msg : text)
| Api_content (content : option text)
| Api_retry (msg : text) (next : api_reply).

(** [client = OpenAI(api_key=...)] keeps the [max_retries] of the
    library, which is 2: a request is sent three times at most. *)
Definition max_retries : nat := 2.

(** The client after a failure [msg] that it retries: with no retry
    left it raises that failure, otherwise it sends the request again. *)
Fixpoint resend (retries_left : nat) (msg : text) (next : api_reply)
  : ui (option text) :=
  match retries_left with
  | O => raise (ApiException msg)
  | S k =>
      st Request ;;
      match next with
      | Api_raises m => raise (ApiException m)
      | Api_content content => ret content
      | Api_retry m n => resend k m n
      end
  end.

(** [client.chat.completions.create(...)] and the content of its first
    choice: the request is sent and meets [reply]. *)
Definition chat_completion (reply : api_reply) : ui (option text) :=
  st Request ;;
  match reply with
  | Api_raises msg => raise (ApiException msg)
  | Api_content content => ret content
  | Api_retry msg next => resend max_retries msg next
  end.

(** [re.sub] on a content that is not a string raises [TypeError]. *)
Definition clean (content : option text) : ui text :=
  match content with
  | Some response_text => ret (clean_json_response response_text)
  | None => raise TypeError
  end.

(** The function from the request's reply on (the picture is encoded
    before the [try] and is no part of the model).  [None] is [JNull]. *)
Definition detect_and_solve_sudoku (reply : api_reply) : ui json :=
  try_except
    (response_text <- chat_completion reply ;;
     json_text <- clean response_text ;;
     match json_loads json_text with
     | inr result => ret result
     | inl e =>
         st (St_error (FailedToParse e)) ;;
         st (St_text (lit "Raw response:")) ;;
         st (St_text (match response_text with Some t => t | None => [] end)) ;;
         ret JNull
     end)
    (fun e =>
       st (St_error (ErrorProcessing e)) ;;
       ret JNull).

(** ** display_grids and format_grid *)

Definition grid : Type := list (list Z).

(** [str(n)] of an integer. *)
Definition str_of_int (n : Z) : text := lit (NilZero.string_of_int (Z.to_int n)).

Definition newline : text := [10%N].

Fixpoint join (sep : text) (parts : list text) : text :=
  match parts with
  | [] => []
  | [p] => p
  | p :: rest => p ++ sep ++ join sep rest
  end.

(** [l[i:j]] for [0 <= i <= j]. *)
Definition slice {A : Type} (l : list A) (i j : nat) : list A :=
  firstn (j - i) (skipn i l).

(** f" {n if n != 0 else '_'} " *)
Definition format_number (n : Z) : text :=
  lit " " ++ (if Z.eqb n 0 then lit "_" else str_of_int n) ++ lit " ".

Definition format_row (row : list Z) : text :=
  let formatted_numbers := map format_number row in
  lit "|" ++
  join (lit "|")
    (map (fun i => concat (slice formatted_numbers i (i + 3))) [0; 3; 6])
  ++ lit "|".

(** The loop of [format_grid] from row [i] on. *)
Fixpoint format_rows (i : nat) (rows : grid) (formatted_rows : list text)
  : list text :=
  match rows with
  | [] => formatted_rows
  | row :: rest =>
      let formatted_rows := formatted_rows ++ [format_row row] in
      let formatted_rows :=
        if Nat.eqb (i mod 3) 2 && Nat.ltb i 8 then
          formatted_rows ++
          [repeat 45%N (length (hd [] formatted_rows))]
        else formatted_rows in
      format_rows (S i) rest formatted_rows
  end.

Definition format_grid (g : grid) : list text := format_rows 0 g [].

(** [format_grid] is modelled on lists of lists of integers.  On any
    other value Python iterates what it can (strings, dicts) or raises;
    the model stops there. *)
Definition as_int (v : json) : option Z :=
  match v with JInt z => Some z | _ => None end.

Fixpoint all_some {A : Type} (l : list (option A)) : option (list A) :=
  match l with
  | [] => Some []
  | Some a :: t =>
      match all_some t with Some r => Some (a :: r) | None => None end
  | None :: _ => None
  end.

Definition as_row (v : json) : option (list Z) :=
  match v with
  | JArray items => all_some (map as_int items)
  | _ => None
  end.

Definition as_grid (v : json) : option grid :=
  match v with
  | JArray rows => all_some (map as_row rows)
  | _ => None
  end.

(** [result[key]] *)
Definition getitem (result : json) (key : text) : ui json :=
  match result with
  | JObject d =>
      match dict_get key d with
      | Some v => ret v
      | None => raise (KeyError key)
      end
  | _ => raise TypeError
  end.

Definition formatted (v : json) : ui text :=
  match as_grid v with
  | Some g => ret (join newline (format_grid g))
  | None => unmodelled
  end.

Definition display_grids (result : json) : ui unit :=
  if negb (truthy result) then ret tt
  else
    st (St_columns 2) ;;
    in_column 1
      (st (St_subheader (lit "Original Puzzle")) ;;
       g <- getitem result (lit "initial_grid") ;;
       t <- formatted g ;;
       st (St_text t)) ;;
    in_column 2
      (st (St_subheader (lit "Solved Puzzle")) ;;
       g <- getitem result (lit "solved_grid") ;;
       t <- formatted g ;;
       st (St_text t)).

(** ** The solve action of main: what the button starts

    [solve_puzzle] is the block under the spinner from the request on,
    for a picture that has been written as PNG; the block as a whole,
    with [image.save] before the [try], is in [main] below. *)

Definition solve_puzzle (reply : api_reply) : ui unit :=
  st (St_spinner (lit "Processing image and solving puzzle...")) ;;
  result <- detect_and_solve_sudoku reply ;;
  if truthy result then
    st (St_success (lit "Puzzle solved!")) ;;
    display_grids result
  else ret tt.

(** ** The vocabulary of the statements below *)

(** The shape of a puzzle result: an object whose [initial_grid] and
    [solved_grid] are lists of exactly 9 lists of exactly 9 integers
    between 0 and 9. *)
Definition cell_ok (v : json) : bool :=
  match v with
  | JInt z => Z.leb 0 z && Z.leb z 9
  | _ => false
  end.

Definition row_ok (v : json) : bool :=
  match v with
  | JArray cells => Nat.eqb (length cells) 9 && forallb cell_ok cells
  | _ => false
  end.

Definition grid_ok (v : json) : bool :=
  match v with
  | JArray rows => Nat.eqb (length rows) 9 && forallb row_ok rows
  | _ => false
  end.

Definition shape_invariant (v : json) : bool :=
  match v with
  | JObject d =>
      match dict_get (lit "initial_grid") d, dict_get (lit "solved_grid") d with
      | Some a, Some b => grid_ok a && grid_ok b
      | _, _ => false
      end
  | _ => false
  end.

(** The same shape on a grid of integers. *)
Definition puzzle_grid (g : grid) : Prop :=
  length g = 9 /\
  Forall (fun row => length row = 9 /\ Forall (fun n => (0 <= n <= 9)%Z) row) g.

(** A grid of integers as a JSON value, and the object that pairs two. *)
Definition grid_json (g : grid) : json :=
  JArray (map (fun row => JArray (map JInt row)) g).

Definition payload (initial solved : grid) : json :=
  JObject [(lit "initial_grid", grid_json initial);
           (lit "solved_grid", grid_json solved)].

(** What the client makes of a reply, read off the reply alone: how
    many times the request is sent, and what comes of it in the end, an
    exception or the content. *)
Fixpoint settle (retries_left : nat) (reply : api_reply)
  : nat * (text + option text) :=
  match reply with
  | Api_raises msg => (1, inl msg)
  | Api_content content => (1, inr content)
  | Api_retry msg next =>
      match retries_left with
      | O => (1, inl msg)
      | S k => let (n, r) := settle k next in (S n, r)
      end
  end.

Definition requests_sent (reply : api_reply) : nat :=
  fst (settle max_retries reply).

Definition client_result (reply : api_reply) : text + option text :=
  snd (settle max_retries reply).

(** The effects by name. *)
Definition spinner : effect :=
  St_spinner (lit "Processing image and solving puzzle...").

Definition solved_message : effect := St_success (lit "Puzzle solved!").

Definition parse_failure (e : decode_error) (raw : text) : list effect :=
  [St_error (FailedToParse e); St_text (lit "Raw response:"); St_text raw].

Definition shown_grids (initial solved : grid) : list effect :=
  [St_columns 2;
   In_column 1 (St_subheader (lit "Original Puzzle"));
   In_column 1 (St_text (join newline (format_grid initial)));
   In_column 2 (St_subheader (lit "Solved Puzzle"));
   In_column 2 (St_text (join newline (format_grid solved)))].

(** The rendering of a row of nine digits and of the rule between
    bands: a bar, three cells, a bar, three cells, a bar, three cells, a
    bar; every cell a space, a glyph, a space. *)
Definition glyph (n : Z) : char :=
  if Z.eqb n 0 then 95%N else Z.to_N (48 + n).

Definition cell (n : Z) : text := [32%N; glyph n; 32%N].

Definition bar : text := [124%N].

Definition boxed_line (row : list Z) : text :=
  match row with
  | [a; b; c; d; e; f; g; h; i] =>
      bar ++ cell a ++ cell b ++ cell c ++
      bar ++ cell d ++ cell e ++ cell f ++
      bar ++ cell g ++ cell h ++ cell i ++ bar
  | _ => []
  end.

Definition rule : text := repeat 45%N 31.

(** ** A reply used as an example: a fenced payload *)

Definition example_initial : grid :=
  [[5;3;0;0;7;0;0;0;0]; [6;0;0;1;9;5;0;0;0]; [0;9;8;0;0;0;0;6;0];
   [8;0;0;0;6;0;0;0;3]; [4;0;0;8;0;3;0;0;1]; [7;0;0;0;2;0;0;0;6];
   [0;6;0;0;0;0;2;8;0]; [0;0;0;4;1;9;0;0;5]; [0;0;0;0;8;0;0;7;9]]%Z.

Definition example_solved : grid :=
  [[5;3;4;6;7;8;9;1;2]; [6;7;2;1;9;5;3;4;8]; [1;9;8;3;4;2;5;6;7];
   [8;5;9;7;6;1;4;2;3]; [4;2;6;8;5;3;7;9;1]; [7;1;3;9;2;4;8;5;6];
   [9;6;1;5;3;7;2;8;4]; [2;8;7;4;1;9;6;3;5]; [3;4;5;2;8;6;1;7;9]]%Z.

(** The payload between its braces. *)
Definition example_body : text :=
  q "'initial_grid':[[5,3,0,0,7,0,0,0,0],[6,0,0,1,9,5,0,0,0],[0,9,8,0,0,0,0,6,0],[8,0,0,0,6,0,0,0,3],[4,0,0,8,0,3,0,0,1],[7,0,0,0,2,0,0,0,6],[0,6,0,0,0,0,2,8,0],[0,0,0,4,1,9,0,0,5],[0,0,0,0,8,0,0,7,9]],'solved_grid':[[5,3,4,6,7,8,9,1,2],[6,7,2,1,9,5,3,4,8],[1,9,8,3,4,2,5,6,7],[8,5,9,7,6,1,4,2,3],[4,2,6,8,5,3,7,9,1],[7,1,3,9,2,4,8,5,6],[9,6,1,5,3,7,2,8,4],[2,8,7,4,1,9,6,3,5],[3,4,5,2,8,6,1,7,9]]".

Definition example_fence_open : text := lit "```json" ++ newline.

Definition example_fence_close : text := newline ++ lit "```".

Definition example_reply : text :=
  example_fence_open ++ (lbrace :: example_body ++ [rbrace])
  ++ example_fence_close.

(** ** The compact JSON text of a pair of grids

    The family of replies the example belongs to: both grids written
    with one digit per cell and no white space, under the two keys. *)

Definition digit (n : Z) : Prop := (0 <= n <= 9)%Z.

Definition digit_char (n : Z) : char := Z.to_N (48 + n).

Definition row_text (row : list Z) : text :=
  Json.lbracket :: join [Json.comma] (map (fun n => [digit_char n]) row)
  ++ [Json.rbracket].

Definition grid_text (g : grid) : text :=
  Json.lbracket :: join [Json.comma] (map row_text g) ++ [Json.rbracket].

Definition payload_body (initial solved : grid) : text :=
  q "'initial_grid':" ++ grid_text initial
  ++ q ",'solved_grid':" ++ grid_text solved.

Definition payload_text (initial solved : grid) : text :=
  q "{'initial_grid':" ++ grid_text initial
  ++ q ",'solved_grid':" ++ grid_text solved ++ [rbrace].

(** What may follow an item of an array. *)
Definition closes (x : char) : Prop := x = Json.comma \/ x = Json.rbracket.

Definition row_good (row : list Z) : Prop :=
  length row = 9 /\ Forall digit row.

(** What a step leaves is shorter than what it was given. *)
Definition progress {A : Type} (r : decode_error + A * text) (s : text) : Prop :=
  match r with
  | inr (_, rest) => length rest < length s
  | inl _ => True
  end.


(** ** The vocabulary of the statements on whole functions *)

(** [subtext a b]: [a] is [b] with some characters deleted. *)
Inductive subtext : text -> text -> Prop :=
| subtext_nil : subtext [] []
| subtext_keep x a b : subtext a b -> subtext (x :: a) (x :: b)
| subtext_drop x a b : subtext a b -> subtext a (x :: b).

(** A text that is empty or whose last character is neither white space
    nor a backtick: no fence match can begin in it and reach beyond. *)
Fixpoint ends_safely (p : text) : bool :=
  match p with
  | [] => true
  | [c] => negb (Re.is_space c) && negb (N.eqb c backtick)
  | _ :: t => ends_safely t
  end.

(** The rule between bands: as many dashes as the first line is long. *)
Definition dashes (g : grid) : text :=
  repeat 45%N (length (format_row (hd [] g))).

(** What [display_grids] shows after the columns are made and the first
    subheader is written: texts and subheaders inside a column. *)
Definition in_a_column (e : effect) : bool :=
  match e with
  | In_column _ (St_text _) | In_column _ (St_subheader _) => true
  | _ => false
  end.

Definition display_opening : list effect :=
  [St_columns 2; In_column 1 (St_subheader (lit "Original Puzzle"))].

(** ** The page: main and capture_image

    One run of the script.  What the user and the libraries answer is
    given with the run: the option picked in the radio, the file (if any)
    behind the camera widget and behind the uploader, whether the button
    was pressed, and the reply of the remote model. *)

(** A call of Pillow either raises or gives its result. *)
Inductive pillow (A : Type) : Type :=
| Pillow_raises (msg : text)
| Pillow_gives (a : A).

Arguments Pillow_raises {A} msg.
Arguments Pillow_gives {A} a.

(** A picture is known by what [image.save(buf, format='PNG')] does with
    it: the bytes written, or an exception.  A file is known by what
    [Image.open] does with it. *)
Definition picture : Type := pillow (list N).
Definition image_file : Type := pillow picture.

Record session : Type := Session {
  radio_answer : text;
  camera_answer : option image_file;
  uploader_answer : option image_file;
  button_answer : bool;
  api_answer : api_reply
}.

(** The calls of a run: the widgets of the page, and the calls made
    inside the solve action. *)
Inductive page_call : Type :=
| St_title (t : text)
| St_radio (label : text) (options : list text) (index : nat)
| St_camera_input (label : text)
| St_file_uploader (label : text) (types : list text)
| St_image (caption : text) (use_column_width : bool)
| St_button (label : text)
| Solving (e : effect).

Inductive page_exn : Type :=
| Pillow_error (msg : text)
| Solve_error (e : exn).

Inductive page_outcome (A : Type) : Type :=
| Done (a : A)
| Escaped (e : page_exn)
| Page_unmodelled.

Arguments Done {A} a.
Arguments Escaped {A} e.
Arguments Page_unmodelled {A}.

Definition page (A : Type) : Type :=
  list page_call -> page_outcome A * list page_call.

Definition page_ret {A : Type} (a : A) : page A := fun tr => (Done a, tr).

Definition escape {A : Type} (e : page_exn) : page A :=
  fun tr => (Escaped e, tr).

Definition page_bind {A B : Type} (c : page A) (k : A -> page B) : page B :=
  fun tr =>
    match c tr with
    | (Done a, tr') => k a tr'
    | (Escaped e, tr') => (Escaped e, tr')
    | (Page_unmodelled, tr') => (Page_unmodelled, tr')
    end.

Declare Scope page_scope.
Delimit Scope page_scope with page.
Notation "x <- c ;; k" := (page_bind c (fun x => k))
  (at level 61, c at next level, right associativity) : page_scope.
Notation "c ;; k" := (page_bind c (fun _ => k))
  (at level 61, right associativity) : page_scope.

(** A widget is drawn and answers. *)
Definition widget {A : Type} (c : page_call) (answer : A) : page A :=
  fun tr => (Done answer, tr ++ [c]).

(** A computation of the solve action, run inside the page. *)
Definition solving {A : Type} (c : ui A) : page A :=
  fun tr =>
    let '(o, es) := c [] in
    (match o with
     | Returned a => Done a
     | Raised e => Escaped (Solve_error e)
     | Unmodelled => Page_unmodelled
     end, tr ++ map Solving es).

(** [Image.open(file)] *)
Definition image_open (f : image_file) : page picture :=
  match f with
  | Pillow_raises msg => escape (Pillow_error msg)
  | Pillow_gives image => page_ret image
  end.

Definition capture_image (s : session) : page (option picture) :=
  (img_file <- widget (St_camera_input
                         (lit "Take a picture of the Sudoku puzzle"))
                      (camera_answer s) ;;
   match img_file with
   | Some f => image <- image_open f ;; page_ret (Some image)
   | None => page_ret None
   end)%page.

(** The first lines of [detect_and_solve_sudoku], before its [try]: the
    picture is written as PNG, which may raise; the bytes go, in base 64,
    into the request, whose content the model does not keep. *)
Definition save_png (image : picture) : page (list N) :=
  match image with
  | Pillow_raises msg => escape (Pillow_error msg)
  | Pillow_gives img_byte_arr => page_ret img_byte_arr
  end.

(** [detect_and_solve_sudoku(image)] as a whole. *)
Definition detect_and_solve_sudoku_image (image : picture) (reply : api_reply)
  : page json :=
  (_ <- save_png image ;;
   solving (detect_and_solve_sudoku reply))%page.

(** The end of the solve action: [if result: ...]. *)
Definition show_result (result : json) : ui unit :=
  if truthy result then
    st (St_success (lit "Puzzle solved!")) ;;
    display_grids result
  else ret tt.

(** [main], one run.  An opened picture is true in [if image:] (an
    [Image] of Pillow defines neither [__bool__] nor [__len__]), and the
    widgets themselves are taken not to raise. *)
Definition main (s : session) : page unit :=
  (widget (St_title (lit "Sudoku Solver with GPT Vision")) tt ;;
   upload_option <-
     widget (St_radio (lit "Choose input method:")
               [lit "Upload Image"; lit "Camera"] 0)
            (radio_answer s) ;;
   image <-
     (if Json.text_eqb upload_option (lit "Camera") then capture_image s
      else
        uploaded_file <-
          widget (St_file_uploader (lit "Choose a Sudoku puzzle image")
                    [lit "jpg"; lit "jpeg"; lit "png"])
                 (uploader_answer s) ;;
        match uploaded_file with
        | Some f => image <- image_open f ;; page_ret (Some image)
        | None => page_ret None
        end) ;;
   match image with
   | Some image =>
       widget (St_image (lit "Uploaded Image") true) tt ;;
       pressed <- widget (St_button (lit "Solve Puzzle")) (button_answer s) ;;
       if pressed then
         solving (st (St_spinner (lit "Processing image and solving puzzle..."))) ;;
         result <- detect_and_solve_sudoku_image image (api_answer s) ;;
         solving (show_result result)
       else page_ret tt
   | None => page_ret tt
   end)%page.

(** The vocabulary of the statements on the page. *)

Definition camera_chosen (s : session) : bool :=
  Json.text_eqb (radio_answer s) (lit "Camera").

(** The file behind the widget that the radio selects. *)
Definition chosen (s : session) : option image_file :=
  if camera_chosen s then camera_answer s else uploader_answer s.

Definition input_widget (s : session) : page_call :=
  if camera_chosen s
  then St_camera_input (lit "Take a picture of the Sudoku puzzle")
  else St_file_uploader (lit "Choose a Sudoku puzzle image")
         [lit "jpg"; lit "jpeg"; lit "png"].

Definition front (s : session) : list page_call :=
  [St_title (lit "Sudoku Solver with GPT Vision");
   St_radio (lit "Choose input method:") [lit "Upload Image"; lit "Camera"] 0;
   input_widget s].

Definition offer : list page_call :=
  [St_image (lit "Uploaded Image") true; St_button (lit "Solve Puzzle")].

Fixpoint calls_request (e : effect) : bool :=
  match e with
  | Request => true
  | In_column _ c => calls_request c
  | _ => false
  end.

Definition is_request (c : page_call) : bool :=
  match c with Solving e => calls_request e | _ => false end.

Definition requests (tr : list page_call) : nat :=
  length (filter is_request tr).

(** A picture was opened and encoded, and the button was pressed. *)
Definition ready (s : session) : bool :=
  match chosen s with
  | Some (Pillow_gives (Pillow_gives _)) => button_answer s
  | _ => false
  end.

Definition is_error (e : effect) : bool :=
  match e with St_error _ => true | _ => false end.

Definition is_success (e : effect) : bool :=
  match e with St_success _ => true | _ => false end.

Definition is_text (e : effect) : bool :=
  match e with St_text _ => true | _ => false end.



(** A computation of the solve action only adds calls: what it returns
    and what it adds do not depend on the calls made before. *)
Definition appends {A : Type} (c : ui A) : Prop :=
  forall tr, c tr = (fst (c []), tr ++ snd (c [])).


(** A run with an uploaded file. *)
Definition example_session (file : image_file) (pressed : bool) : session :=
  Session (lit "Upload Image") None (Some file) pressed
    (Api_content (Some example_reply)).

(* ================================================================== *)
(** * Properties *)

(** ** The matcher on a starred character class *)

Module ReFacts.
Import Re.

Lemma exec_seq r1 r2 c k :
  exec (Seq r1 r2) c k = exec r1 c (fun c' => exec r2 c' k).
Proof. reflexivity. Qed.

Lemma exec_alt r1 r2 c k :
  exec (Alt r1 r2) c k =
  match exec r1 c k with Some e => Some e | None => exec r2 c k end.
Proof. reflexivity. Qed.

Lemma exec_bol c k : exec Bol c k = if Nat.eqb (pos c) 0 then k c else None.
Proof. reflexivity. Qed.

Lemma exec_eol c k : exec Eol c k = if at_end (rest c) then k c else None.
Proof. reflexivity. Qed.

Lemma search_eq r m p s :
  search r m p s =
  match match_at r m (Cursor p s) with
  | Some e => Some ([], e)
  | None =>
      match s with
      | [] => None
      | x :: t =>
          match search r false (S p) t with
          | Some (skipped, e) => Some (x :: skipped, e)
          | None => None
          end
      end
  end.
Proof. destruct s; reflexivity. Qed.

Lemma star_loop_cls (p : char -> bool) (k : cursor -> option cursor) :
  forall m n s, length s <= m ->
    star_loop (exec (Cls p)) k m (Cursor n s) = greedy p n s k.
Proof.
  induction m as [|m IH]; intros n s Hlen.
  - destruct s as [|x t]; simpl in Hlen; [reflexivity | lia].
  - destruct s as [|x t]; simpl; [reflexivity|].
    destruct (p x); [|reflexivity].
    assert (Hlt : Nat.ltb n (S n) = true) by (apply Nat.ltb_lt; lia).
    rewrite Hlt, IH by (simpl in Hlen; lia). reflexivity.
Qed.

Lemma exec_star_cls (p : char -> bool) (k : cursor -> option cursor) n s :
  exec (Star (Cls p)) (Cursor n s) k = greedy p n s k.
Proof. simpl. apply star_loop_cls. lia. Qed.

(** When the continuation accepts every later position, the longest run
    wins. *)
Lemma greedy_total (p : char -> bool) (k : cursor -> option cursor) :
  forall s n,
    (forall c, n <= pos c -> k c = Some c) ->
    greedy p n s k = Some (Cursor (n + length (take_while p s)) (drop_while p s)).
Proof.
  induction s as [|x t IH]; intros n Hk; simpl.
  - rewrite Hk by (simpl; lia). f_equal. f_equal. lia.
  - destruct (p x); simpl.
    + rewrite IH by (intros c Hc; apply Hk; lia). f_equal. f_equal. lia.
    + rewrite Hk by (simpl; lia). f_equal. f_equal. lia.
Qed.

Lemma exec_str (l : text) (k : cursor -> option cursor) :
  forall s n,
    exec (str l) (Cursor n s) k =
    if starts_with l s then k (Cursor (n + length l) (skipn (length l) s))
    else None.
Proof.
  induction l as [|a l IH]; intros s n.
  - simpl. rewrite Nat.add_0_r. reflexivity.
  - cbn [str]. rewrite exec_seq. cbn [exec rest pos starts_with].
    destruct s as [|x s]; [reflexivity|].
    destruct (N.eqb x a); [|reflexivity].
    rewrite IH. cbn [andb length skipn].
    replace (S n + length l) with (n + S (length l)) by lia. reflexivity.
Qed.

(** When the continuation refuses every position that still stands on a
    character of the class, only the longest run is a candidate. *)
Lemma greedy_longest (p : char -> bool) (k : cursor -> option cursor) :
  (forall n x t, p x = true -> k (Cursor n (x :: t)) = None) ->
  forall s n,
    greedy p n s k = k (Cursor (n + length (take_while p s)) (drop_while p s)).
Proof.
  intros Hk. induction s as [|x t IH]; intros n; simpl.
  - f_equal. f_equal. lia.
  - destruct (p x) eqn:Hp; simpl.
    + rewrite IH, (Hk n x t Hp).
      replace (S n + length (take_while p t))
        with (n + S (length (take_while p t))) by lia.
      destruct (k _); reflexivity.
    + f_equal. f_equal. lia.
Qed.

End ReFacts.

(** ** The two brace patterns *)

Section BracePatterns.
Import Re ReFacts.

Lemma search_bol_later (r : regex) :
  forall s m p, 0 < p -> search (Seq Bol r) m p s = None.
Proof.
  induction s as [|x t IH]; intros m p Hp; simpl;
    unfold match_at; simpl;
    destruct (Nat.eqb_spec p 0); try lia; try reflexivity.
  rewrite IH by lia. reflexivity.
Qed.

Lemma drop_take_while (p : char -> bool) (s : text) :
  take_while p (drop_while p s) = [].
Proof.
  induction s as [|x t IH]; simpl; [reflexivity|].
  destruct (p x) eqn:Hp; [exact IH|]. simpl. rewrite Hp. reflexivity.
Qed.

Lemma match_before (m : bool) (n : nat) (s : text) :
  match_at before_brace_re m (Cursor n s) =
  if Nat.eqb n 0 then
    greedy (is_not lbrace) n s
      (fun e => if m && Nat.eqb (pos e) n then None else Some e)
  else None.
Proof.
  unfold match_at, before_brace_re.
  rewrite exec_seq, exec_bol. cbv beta. cbn [pos].
  destruct (Nat.eqb n 0); [|reflexivity].
  apply exec_star_cls.
Qed.

(** After the first deletion nothing more is found: the pattern is
    anchored, and an empty match at the start is not taken twice. *)
Lemma sub_loop_before_done (fuel n : nat) (s : text) (m : bool) :
  take_while (is_not lbrace) s = [] ->
  (n = 0 -> m = true) ->
  sub_loop fuel before_brace_re m n s = s.
Proof.
  intros Htw Hm. destruct fuel as [|fuel]; [reflexivity|].
  cbn [sub_loop].
  destruct n as [|n].
  - rewrite (Hm eq_refl).
    assert (Hs : search before_brace_re true 0 s = None).
    { destruct s as [|x t]; cbn [search]; rewrite match_before.
      - reflexivity.
      - simpl in Htw. simpl.
        destruct (is_not lbrace x); [discriminate|]. simpl.
        unfold before_brace_re.
        rewrite search_bol_later by lia. reflexivity. }
    rewrite Hs. reflexivity.
  - unfold before_brace_re. rewrite search_bol_later by lia. reflexivity.
Qed.

Lemma sub_before_brace (s : text) :
  sub_empty before_brace_re s = from_first lbrace s.
Proof.
  unfold sub_empty.
  replace (2 * length s + 2) with (S (2 * length s + 1)) by lia.
  cbn [sub_loop]. rewrite search_eq, match_before. cbn [Nat.eqb].
  rewrite greedy_total by (intros c _; reflexivity).
  cbn [app pos rest length Nat.add].
  apply sub_loop_before_done.
  - apply drop_take_while.
  - intros H. apply Nat.eqb_eq. simpl. exact H.
Qed.

Lemma occurs_cons (a x : char) (t : text) :
  occurs a (x :: t) = N.eqb x a || occurs a t.
Proof. unfold occurs. simpl. rewrite (N.eqb_sym a x). reflexivity. Qed.

Lemma greedy_after (m : bool) (n0 : nat) :
  forall s n, n0 <= n ->
    greedy (is_not rbrace) n s
      (fun c' => exec Eol c'
         (fun e => if m && Nat.eqb (pos e) n0 then None else Some e)) =
    if occurs rbrace s then None
    else if m && Nat.eqb (n + length s) n0 then None
    else Some (Cursor (n + length s) []).
Proof.
  induction s as [|x t IH]; intros n Hn.
  - simpl. rewrite Nat.add_0_r. reflexivity.
  - cbn [greedy]. rewrite occurs_cons. unfold is_not at 1.
    destruct (N.eqb_spec x rbrace) as [->|Hx]; cbn [negb orb].
    + rewrite exec_eol. cbn [rest at_end].
      destruct t; reflexivity.
    + rewrite IH by lia. cbn [length].
      replace (S n + length t) with (n + S (length t)) by lia.
      destruct (occurs rbrace t) eqn:Ho.
      * rewrite exec_eol. cbn [rest at_end].
        destruct t; [discriminate | reflexivity].
      * destruct (Nat.eqb_spec (n + S (length t)) n0); [lia|].
        rewrite andb_false_r. reflexivity.
Qed.

Lemma match_after (m : bool) (n : nat) (s : text) :
  match_at after_brace_re m (Cursor n s) =
  if occurs rbrace s then None
  else if m && Nat.eqb (length s) 0 then None
  else Some (Cursor (n + length s) []).
Proof.
  unfold match_at, after_brace_re.
  rewrite exec_seq, exec_star_cls. cbn [pos].
  rewrite greedy_after by lia.
  destruct (occurs rbrace s); [reflexivity|].
  destruct s; simpl.
  - rewrite Nat.add_0_r, Nat.eqb_refl. reflexivity.
  - destruct (Nat.eqb_spec (n + S (length s)) n); [lia|].
    rewrite andb_false_r. reflexivity.
Qed.

Lemma search_after :
  forall s n,
    search after_brace_re false n s =
    Some (through_last rbrace s, Cursor (n + length s) []).
Proof.
  induction s as [|x t IH]; intros n; rewrite search_eq, match_after.
  - simpl. rewrite Nat.add_0_r. reflexivity.
  - cbn [through_last andb].
    destruct (occurs rbrace (x :: t)); [|reflexivity].
    rewrite IH. cbn [length].
    replace (S n + length t) with (n + S (length t)) by lia. reflexivity.
Qed.

Lemma sub_loop_after_nil :
  forall fuel m n, sub_loop fuel after_brace_re m n [] = [].
Proof.
  induction fuel as [|fuel IH]; intros m n; [reflexivity|].
  cbn [sub_loop]. rewrite search_eq, match_after.
  cbn [occurs existsb length Nat.eqb].
  destruct m; cbn [andb]; [reflexivity|].
  cbn [app pos rest]. apply IH.
Qed.

Lemma sub_after_brace (s : text) :
  sub_empty after_brace_re s = through_last rbrace s.
Proof.
  unfold sub_empty.
  replace (2 * length s + 2) with (S (2 * length s + 1)) by lia.
  cbn [sub_loop]. rewrite search_after. cbn [pos rest].
  rewrite sub_loop_after_nil. apply app_nil_r.
Qed.

End BracePatterns.

(** [clean_json_response] as the three steps it performs. *)
Lemma clean_json_response_eq (response_text : text) :
  clean_json_response response_text =
  through_last rbrace (from_first lbrace (strip_fences response_text)).
Proof.
  unfold clean_json_response, strip_fences.
  cbv zeta. rewrite sub_after_brace, sub_before_brace. reflexivity.
Qed.

(** ** The fence pattern *)

Section FencePattern.
Import Re ReFacts.

Lemma take_drop_while (p : char -> bool) (s : text) :
  take_while p s ++ drop_while p s = s.
Proof.
  induction s as [|x t IH]; simpl; [reflexivity|].
  destruct (p x); simpl; [rewrite IH|]; reflexivity.
Qed.

Lemma take_while_all (p : char -> bool) (s : text) :
  forall c, In c (take_while p s) -> p c = true.
Proof.
  induction s as [|x t IH]; simpl; intros c Hc; [contradiction|].
  destruct (p x) eqn:Hp; [|contradiction].
  destruct Hc as [<-|Hc]; [exact Hp | exact (IH c Hc)].
Qed.

Lemma starts_with_split :
  forall l s, starts_with l s = true -> s = l ++ skipn (length l) s.
Proof.
  induction l as [|a l IH]; intros s H; [reflexivity|].
  destruct s as [|x s]; [discriminate|].
  simpl in H. apply andb_prop in H as [Hx Hl].
  apply N.eqb_eq in Hx. subst x. simpl. f_equal. exact (IH s Hl).
Qed.

Lemma space_not_backtick (x : char) :
  is_space x = true -> N.eqb x backtick = false.
Proof.
  intros Hx. destruct (N.eqb_spec x backtick) as [->|]; [|reflexivity].
  vm_compute in Hx. discriminate.
Qed.

(** The matcher on the fence pattern finds what [fence_match] describes,
    and a match is never empty. *)
Lemma match_fence (m : bool) (n : nat) (s : text) :
  match fence_match s with
  | Some r =>
      exists n', n < n' /\ match_at fence_re m (Cursor n s) = Some (Cursor n' r)
  | None => match_at fence_re m (Cursor n s) = None
  end.
Proof.
  unfold fence_match, match_at, fence_re.
  rewrite exec_alt, !exec_seq, exec_str. cbn [pos].
  destruct (starts_with (lit "```json") s) eqn:Hj.
  - rewrite exec_star_cls, greedy_total.
    + eexists. split; [|reflexivity]. simpl. lia.
    + intros c Hc. simpl in Hc.
      destruct (Nat.eqb_spec (pos c) n); [lia|].
      rewrite andb_false_r. reflexivity.
  - rewrite exec_star_cls, greedy_longest.
    + rewrite exec_str.
      destruct (starts_with (lit "```") (drop_while is_space s)); [|reflexivity].
      eexists. split; [|cbn [pos]].
      2:{ match goal with
          | |- (if ?b then _ else _) = _ => replace b with false; [reflexivity|]
          end.
          symmetry. apply andb_false_intro2. apply Nat.eqb_neq. simpl. lia. }
      simpl. lia.
    + intros n0 x t Hx. rewrite exec_str. cbn [starts_with lit map list_ascii_of_string].
      change (N_of_ascii "`") with backtick.
      rewrite (space_not_backtick _ Hx). reflexivity.
Qed.

(** What a fence match deletes is a non-empty prefix made of whitespace
    and of characters of the marker. *)
Lemma fence_match_split (s r : text) :
  fence_match s = Some r ->
  exists a, s = a ++ r /\ a <> [] /\
    forall c, In c a -> is_space c = true \/ In c (lit "```json").
Proof.
  unfold fence_match.
  destruct (starts_with (lit "```json") s) eqn:Hj.
  - intros [= <-]. apply starts_with_split in Hj.
    exists (lit "```json" ++ take_while is_space (skipn 7 s)).
    split; [|split].
    + rewrite <- app_assoc, take_drop_while. exact Hj.
    + discriminate.
    + intros c Hc. apply in_app_or in Hc as [Hc|Hc]; [right; exact Hc|].
      left. exact (take_while_all _ _ _ Hc).
  - destruct (starts_with (lit "```") (drop_while is_space s)) eqn:Hb;
      [|discriminate].
    intros [= <-]. apply starts_with_split in Hb.
    exists (take_while is_space s ++ lit "```").
    split; [|split].
    + rewrite <- app_assoc.
      transitivity (take_while is_space s ++ drop_while is_space s).
      * symmetry. apply take_drop_while.
      * f_equal. exact Hb.
    + intros H. apply app_eq_nil in H as [_ H]. discriminate.
    + intros c Hc. apply in_app_or in Hc as [Hc|Hc].
      * left. exact (take_while_all _ _ _ Hc).
      * right. simpl in Hc. simpl. tauto.
Qed.

Lemma fence_match_shorter (s r : text) :
  fence_match s = Some r -> length r < length s.
Proof.
  intros H. apply fence_match_split in H as (a & -> & Ha & _).
  rewrite length_app. destruct a; [contradiction|]. simpl. lia.
Qed.

(** One search of [re.sub]: either no position matches and the text is
    kept as it is, or the skipped text is kept and the match deleted. *)
Lemma search_fence :
  forall s m p,
    match search fence_re m p s with
    | None => strips s s
    | Some (skipped, e) =>
        Nat.eqb (pos e) (p + length skipped) = false /\
        length (rest e) < length s /\
        forall out, strips (rest e) out -> strips s (skipped ++ out)
    end.
Proof.
  induction s as [|x t IH]; intros m p; rewrite search_eq.
  - pose proof (match_fence m p []) as Hm.
    change (fence_match []) with (@None text) in Hm. rewrite Hm. constructor.
  - pose proof (match_fence m p (x :: t)) as Hm.
    destruct (fence_match (x :: t)) as [r|] eqn:Hf.
    + destruct Hm as (n' & Hn & ->). cbn [pos rest length app].
      split; [apply Nat.eqb_neq; lia|]. split.
      * exact (fence_match_shorter _ Hf).
      * intros out Hout. exact (strips_fence _ Hf Hout).
    + rewrite Hm. specialize (IH false (S p)).
      destruct (search fence_re false (S p) t) as [[skipped e]|].
      * destruct IH as (Hne & Hlen & Hout). cbn [length app]. split; [|split].
        -- rewrite <- Hne. f_equal. lia.
        -- lia.
        -- intros out Ho. apply strips_keep; [exact Hf | exact (Hout out Ho)].
      * apply strips_keep; assumption.
Qed.

Lemma sub_loop_fence :
  forall fuel s m p,
    length s < fuel -> strips s (sub_loop fuel fence_re m p s).
Proof.
  induction fuel as [|fuel IH]; intros s m p Hlen; [lia|].
  cbn [sub_loop]. pose proof (search_fence s m p) as Hs.
  destruct (search fence_re m p s) as [[skipped e]|]; [|exact Hs].
  destruct Hs as (_ & Hshort & Hout). apply Hout. apply IH. lia.
Qed.

(** [strip_fences] deletes the fence matches and nothing else. *)
Lemma strip_fences_strips (s : text) : strips s (strip_fences s).
Proof. unfold strip_fences, sub_empty. apply sub_loop_fence. lia. Qed.

End FencePattern.

(** ** Texts around a brace-delimited payload *)

Section Extraction.
Import Re.

Lemma occurs_app (a : char) (s1 s2 : text) :
  occurs a (s1 ++ s2) = occurs a s1 || occurs a s2.
Proof. apply existsb_app. Qed.

Lemma occurs_false_In (a : char) (s : text) :
  occurs a s = false <-> ~ In a s.
Proof.
  unfold occurs. split.
  - intros H Hin. assert (existsb (N.eqb a) s = true); [|congruence].
    apply existsb_exists. exists a. split; [exact Hin | apply N.eqb_refl].
  - intros H. destruct (existsb (N.eqb a) s) eqn:E; [|reflexivity].
    apply existsb_exists in E as (x & Hx & Heq).
    apply N.eqb_eq in Heq. subst x. contradiction.
Qed.

Lemma from_first_app (a : char) (pre rest : text) :
  occurs a pre = false -> from_first a (pre ++ a :: rest) = a :: rest.
Proof.
  unfold from_first. induction pre as [|x pre IH]; intros H.
  - simpl. unfold is_not. rewrite N.eqb_refl. reflexivity.
  - rewrite occurs_cons in H. apply orb_false_elim in H as [Hx Hp].
    simpl. unfold is_not at 1. rewrite Hx. simpl. exact (IH Hp).
Qed.

Lemma from_first_none (a : char) (s : text) :
  occurs a s = false -> from_first a s = [].
Proof.
  unfold from_first. induction s as [|x s IH]; intros H; [reflexivity|].
  rewrite occurs_cons in H. apply orb_false_elim in H as [Hx Hp].
  simpl. unfold is_not at 1. rewrite Hx. simpl. exact (IH Hp).
Qed.

Lemma through_last_none (a : char) (s : text) :
  occurs a s = false -> through_last a s = [].
Proof. destruct s; simpl; [reflexivity|]. intros ->. reflexivity. Qed.

Lemma through_last_app (a : char) (b post : text) :
  occurs a post = false -> through_last a (b ++ a :: post) = b ++ [a].
Proof.
  intros Hp.
  assert (Ha : forall b', occurs a (b' ++ a :: post) = true).
  { intros b'. rewrite occurs_app, occurs_cons, N.eqb_refl.
    apply orb_true_r. }
  induction b as [|x b IH].
  - specialize (Ha []). simpl in *. rewrite Ha.
    rewrite (through_last_none _ _ Hp). reflexivity.
  - specialize (Ha (x :: b)). simpl in *. rewrite Ha, IH. reflexivity.
Qed.

(** Nothing that [strips] leaves was not there before. *)
Lemma strips_subset (s out : text) :
  strips s out -> forall c, In c out -> In c s.
Proof.
  induction 1 as [|s r out Hf _ IH|x t out _ _ IH]; intros c Hc.
  - exact Hc.
  - apply fence_match_split in Hf as (a & -> & _).
    apply in_or_app. right. exact (IH c Hc).
  - destruct Hc as [<-|Hc]; [left; reflexivity | right; exact (IH c Hc)].
Qed.

Lemma app_split_prefix (a : text) :
  forall pre rest r,
    pre ++ lbrace :: rest = a ++ r ->
    (forall c, In c a -> c <> lbrace) ->
    exists pre2, pre = a ++ pre2 /\ r = pre2 ++ lbrace :: rest.
Proof.
  induction a as [|c a IH]; intros pre rest r Heq Ha.
  - exists pre. split; [reflexivity | symmetry; exact Heq].
  - destruct pre as [|y pre]; simpl in Heq; injection Heq as Hc Heq.
    + exfalso. apply (Ha c); [left; reflexivity | symmetry; exact Hc].
    + subst y. destruct (IH pre rest r Heq) as (pre2 & -> & ->).
      * intros c' Hc'. apply Ha. right. exact Hc'.
      * exists pre2. split; reflexivity.
Qed.

Lemma fence_chars_not_lbrace (c : char) :
  is_space c = true \/ In c (lit "```json") -> c <> lbrace.
Proof.
  intros [H|H] ->; [vm_compute in H; discriminate|].
  simpl in H. repeat (destruct H as [H|H]; [discriminate H|]). exact H.
Qed.

(** Before the first opening brace: whatever is deleted there, the text
    from the brace on is untouched and only brace-free text precedes it. *)
Lemma strips_before (s out : text) :
  strips s out ->
  forall pre rest,
    s = pre ++ lbrace :: rest ->
    occurs lbrace pre = false ->
    exists pre' out2,
      out = pre' ++ out2 /\ occurs lbrace pre' = false /\
      strips (lbrace :: rest) out2.
Proof.
  induction 1 as [|s r out Hf Hr IH|x t out Hf Ht IH]; intros pre rest Hs Hpre.
  - destruct pre; discriminate.
  - destruct pre as [|y pre].
    + exists [], out. simpl in Hs. subst s.
      repeat split. exact (strips_fence _ Hf Hr).
    + destruct (fence_match_split _ Hf) as (a & Ha & _ & Hchars).
      rewrite Hs in Ha.
      destruct (app_split_prefix a _ _ _ Ha) as (pre2 & Hp2 & Hr2).
      { intros c Hc. apply fence_chars_not_lbrace. exact (Hchars c Hc). }
      apply (IH pre2 rest Hr2).
      rewrite Hp2, occurs_app in Hpre.
      apply orb_false_elim in Hpre as [_ Hpre]. exact Hpre.
  - destruct pre as [|y pre]; simpl in Hs; injection Hs as -> ->.
    + exists [], (lbrace :: out). repeat split.
      exact (@strips_keep _ _ _ Hf Ht).
    + rewrite occurs_cons in Hpre. apply orb_false_elim in Hpre as [Hy Hpre].
      destruct (IH pre rest eq_refl Hpre) as (pre' & out2 & -> & Hp' & Hs2).
      exists (y :: pre'), out2. repeat split; [|exact Hs2].
      rewrite occurs_cons, Hy, Hp'. reflexivity.
Qed.

Lemma starts_fence_inside (b post : text) :
  starts_with (lit "```") ((b ++ [rbrace]) ++ post) = true ->
  starts_with (lit "```") (b ++ [rbrace]) = true.
Proof.
  destruct b as [|x [|y [|z b]]]; simpl; intros H;
    repeat (apply andb_prop in H as [? H]);
    repeat (apply andb_true_intro; split); try assumption; try reflexivity;
    discriminate.
Qed.

Lemma space_fence_inside (post : text) :
  forall b,
    starts_with (lit "```")
      (drop_while is_space ((b ++ [rbrace]) ++ post)) = true ->
    has_fence (b ++ [rbrace]) = true.
Proof.
  induction b as [|x b IH]; intros H.
  - simpl in H. discriminate.
  - cbn [app drop_while] in H. cbn [app has_fence].
    destruct (is_space x).
    + rewrite (IH H). apply orb_true_r.
    + change (x :: (b ++ [rbrace]) ++ post)
        with (((x :: b) ++ [rbrace]) ++ post) in H.
      apply starts_fence_inside in H. cbn [app] in H. rewrite H. reflexivity.
Qed.

Lemma starts_with_json_fence (s : text) :
  starts_with (lit "```json") s = true -> starts_with (lit "```") s = true.
Proof.
  destruct s as [|x [|y [|z s]]]; simpl; intros H;
    repeat (apply andb_prop in H as [? H]); try discriminate.
  repeat (apply andb_true_intro; split); try assumption; reflexivity.
Qed.

(** No fence match starts inside a text that ends with a closing brace
    and holds no three backticks in a row. *)
Lemma fence_none_inside (b post : text) :
  has_fence (b ++ [rbrace]) = false ->
  fence_match ((b ++ [rbrace]) ++ post) = None.
Proof.
  intros Hnf. unfold fence_match.
  destruct (starts_with (lit "```json") _) eqn:Hj.
  - apply starts_with_json_fence, starts_fence_inside in Hj.
    destruct b; simpl in Hnf, Hj; [discriminate|].
    rewrite Hj in Hnf. discriminate.
  - destruct (starts_with (lit "```") (drop_while _ _)) eqn:Hb; [|reflexivity].
    apply space_fence_inside in Hb. congruence.
Qed.

(** Inside such a text nothing is deleted. *)
Lemma strips_inside (post : text) :
  forall b out,
    has_fence (b ++ [rbrace]) = false ->
    strips ((b ++ [rbrace]) ++ post) out ->
    exists post', out = (b ++ [rbrace]) ++ post' /\ strips post post'.
Proof.
  induction b as [|x b IH]; intros out Hnf Hs.
  - pose proof (fence_none_inside [] post Hnf) as Hnone.
    simpl in *. inversion Hs; subst; [congruence|].
    eexists. split; [reflexivity | assumption].
  - pose proof (fence_none_inside (x :: b) post Hnf) as Hnone.
    cbn [app has_fence] in *. apply orb_false_elim in Hnf as [_ Hnf].
    inversion Hs; subst; [congruence|].
    match goal with H : strips ((b ++ [rbrace]) ++ post) _ |- _ =>
      destruct (IH _ Hnf H) as (post' & -> & Hp) end.
    exists post'. split; [reflexivity | exact Hp].
Qed.

(** Prose tolerance of [clean_json_response]: a brace-delimited text with
    no three backticks in a row, between a prefix with no opening brace
    and a suffix with no closing brace, is returned exactly. *)
Lemma clean_extracts (pre body post : text) :
  occurs lbrace pre = false ->
  occurs rbrace post = false ->
  has_fence (lbrace :: body ++ [rbrace]) = false ->
  clean_json_response (pre ++ (lbrace :: body ++ [rbrace]) ++ post)
  = lbrace :: body ++ [rbrace].
Proof.
  intros Hpre Hpost Hnf. rewrite clean_json_response_eq.
  pose proof (strip_fences_strips (pre ++ (lbrace :: body ++ [rbrace]) ++ post))
    as Hs.
  destruct (strips_before Hs pre ((body ++ [rbrace]) ++ post) eq_refl Hpre)
    as (pre' & out2 & -> & Hpre' & Hs2).
  change (lbrace :: (body ++ [rbrace]) ++ post)
    with (((lbrace :: body) ++ [rbrace]) ++ post) in Hs2.
  destruct (strips_inside post (lbrace :: body) Hnf Hs2) as (post' & -> & Hp).
  assert (Hpost' : occurs rbrace post' = false).
  { apply occurs_false_In. intros Hin.
    apply (strips_subset Hp) in Hin.
    apply occurs_false_In in Hpost. contradiction. }
  cbn [app]. rewrite (from_first_app _ _ _ Hpre').
  rewrite <- app_assoc. cbn [app].
  change (lbrace :: body ++ rbrace :: post')
    with ((lbrace :: body) ++ rbrace :: post').
  rewrite (through_last_app _ _ _ Hpost'). reflexivity.
Qed.

End Extraction.

(** ** The decoder never runs out of fuel *)

Module JsonFacts.
Import Json.

Lemma drop_while_length (p : char -> bool) (s : text) :
  length (drop_while p s) <= length s.
Proof.
  induction s as [|x t IH]; simpl; [lia|].
  destruct (p x); simpl; lia.
Qed.

Ltac break_match_hyp H :=
  match type of H with
  | context [match ?x with _ => _ end] => destruct x eqn:?
  | context [if ?b then _ else _] => destruct b eqn:?
  end.

Lemma scanstring_shorter :
  forall n s acc str r,
    length s <= n -> scanstring s acc = inr (str, r) -> length r < length s.
Proof.
  induction n as [|n IH]; intros s acc str r Hn H.
  - destruct s; [discriminate H | simpl in Hn; lia].
  - destruct s as [|c t]; [discriminate H|].
    simpl in H.
    repeat first
      [ discriminate H
      | injection H as <- <-; cbn [length] in *; lia
      | apply IH in H; cbn [length] in *; lia
      | break_match_hyp H; subst; cbv beta iota in H ].
Qed.

Lemma read_sign_length (s : text) : length (snd (read_sign s)) <= length s.
Proof.
  destruct s as [|c t]; simpl; [lia|]. destruct (N.eqb c minus); simpl; lia.
Qed.

Lemma read_int_shorter (s ds r : text) :
  read_int s = Some (ds, r) -> length r < length s.
Proof.
  destruct s as [|d t]; simpl; [discriminate|].
  pose proof (drop_while_length is_digit t).
  destruct (is_digit19 d); [intros [= <- <-]; simpl; lia|].
  destruct (N.eqb d zero); [intros [= <- <-]; simpl; lia | discriminate].
Qed.

Lemma read_frac_length (s : text) : length (snd (read_frac s)) <= length s.
Proof.
  destruct s as [|p [|f t]]; simpl; try lia.
  pose proof (drop_while_length is_digit t).
  destruct (N.eqb p dot && is_digit f); simpl; lia.
Qed.

Lemma read_exp_length (s : text) : length (snd (read_exp s)) <= length s.
Proof.
  destruct s as [|e t]; simpl; [lia|].
  destruct (N.eqb e 101 || N.eqb e 69); simpl; [|lia].
  destruct t as [|c t']; simpl; [lia|].
  pose proof (drop_while_length is_digit t').
  pose proof (drop_while_length is_digit (c :: t')).
  destruct (N.eqb c minus || N.eqb c plus);
    destruct (take_while is_digit _); simpl in *; lia.
Qed.

Lemma match_number_shorter (s : text) (v : json) (r : text) :
  match_number s = Some (v, r) -> length r < length s.
Proof.
  unfold match_number.
  pose proof (read_sign_length s) as Hs.
  destruct (read_sign s) as [sign s1]. simpl in Hs.
  destruct (read_int s1) as [[ds s2]|] eqn:Hi; [|discriminate].
  apply read_int_shorter in Hi.
  pose proof (read_frac_length s2) as Hf.
  destruct (read_frac s2) as [frac s3]. simpl in Hf.
  pose proof (read_exp_length s3) as He.
  destruct (read_exp s3) as [exp s4]. simpl in He.
  destruct frac, exp; intros [= _ <-]; lia.
Qed.

Lemma skip_ws_length (s : text) : length (skip_ws s) <= length s.
Proof. apply drop_while_length. Qed.

Ltac skip_facts :=
  repeat match goal with
         | E : skip_ws ?x = _ |- _ =>
             lazymatch goal with
             | _ : length (skip_ws x) <= length x |- _ => fail
             | _ => pose proof (skip_ws_length x)
             end
         end;
  repeat match goal with
         | E : skip_ws ?x = _, H : length (skip_ws ?x) <= _ |- _ =>
             rewrite E in H
         end.

Ltac leaf :=
  eexists; split; [reflexivity|]; cbn [progress length] in *; try exact I;
  try lia.

Lemma scan_fuel :
  forall n,
    (forall s, 2 * length s + 1 <= n ->
       exists r, scan_once n s = Some r /\ progress r s) /\
    (forall s acc, 2 * length s + 2 <= n ->
       exists r, array_items n s acc = Some r /\ progress r s) /\
    (forall s acc, 2 * length s + 2 <= n ->
       exists r, object_members n s acc = Some r /\ progress r s).
Proof.
  induction n as [|n (IHs & IHa & IHo)].
  - repeat split; intros; lia.
  - repeat split.
    + intros s Hn. cbn [scan_once].
      destruct s as [|c t]; [unfold fail; leaf|].
      cbn [length] in Hn.
      destruct (N.eqb c dquote).
      { destruct (scanstring t []) as [e|[str r]] eqn:Hstr;
          [unfold fail; leaf|].
        apply (@scanstring_shorter (length t)) in Hstr; [|lia].
        unfold yield; leaf. }
      destruct (N.eqb c lbrace).
      { destruct (skip_ws t) as [|c1 t1] eqn:Hw; skip_facts; cbn [length] in *.
        - destruct (IHo [] [] ltac:(cbn [length]; lia)) as (r & -> & Hr).
          eexists; split; [reflexivity|].
          destruct r as [|[? ?]]; cbn [progress length] in *; [exact I | lia].
        - destruct (N.eqb c1 rbrace); [unfold yield; leaf|].
          destruct (IHo (c1 :: t1) [] ltac:(cbn [length]; lia)) as (r & -> & Hr).
          eexists; split; [reflexivity|].
          destruct r as [|[? ?]]; cbn [progress length] in *; [exact I | lia]. }
      destruct (N.eqb c lbracket).
      { destruct (skip_ws t) as [|c1 t1] eqn:Hw; skip_facts; cbn [length] in *.
        - destruct (IHa [] [] ltac:(cbn [length]; lia)) as (r & -> & Hr).
          eexists; split; [reflexivity|].
          destruct r as [|[? ?]]; cbn [progress length] in *; [exact I | lia].
        - destruct (N.eqb c1 rbracket); [unfold yield; leaf|].
          destruct (IHa (c1 :: t1) [] ltac:(cbn [length]; lia)) as (r & -> & Hr).
          eexists; split; [reflexivity|].
          destruct r as [|[? ?]]; cbn [progress length] in *; [exact I | lia]. }
      repeat match goal with
             | |- context [if starts_with ?l ?x then _ else _] =>
                 destruct (starts_with l x);
                 [unfold yield; eexists; split; [reflexivity|];
                  cbn [progress]; rewrite length_skipn; cbn [length]; lia|]
             end.
      destruct (match_number (c :: t)) as [[v r]|] eqn:Hnum;
        [|unfold fail; leaf].
      apply match_number_shorter in Hnum. unfold yield; leaf.
    + intros s acc Hn. cbn [array_items].
      destruct (IHs s ltac:(lia)) as (r & -> & Hr).
      destruct r as [e|[v r]]; [unfold fail; leaf|]. cbn [progress] in Hr.
      destruct (skip_ws r) as [|c t] eqn:Hw; skip_facts; cbn [length] in *;
        [unfold fail; leaf|].
      destruct (N.eqb c rbracket); [unfold yield; leaf|].
      destruct (N.eqb c comma); [|unfold fail; leaf].
      pose proof (skip_ws_length t).
      destruct (IHa (skip_ws t) (v :: acc) ltac:(lia)) as (r' & -> & Hr').
      eexists; split; [reflexivity|].
      destruct r' as [|[? ?]]; cbn [progress length] in *; [exact I | lia].
    + intros s acc Hn. cbn [object_members].
      destruct s as [|c t]; [unfold fail; leaf|]. cbn [length] in Hn.
      destruct (N.eqb c dquote); [|unfold fail; leaf].
      destruct (scanstring t []) as [e|[key r]] eqn:Hstr; [unfold fail; leaf|].
      apply (@scanstring_shorter (length t)) in Hstr; [|lia].
      destruct (skip_ws r) as [|c2 t2] eqn:Hw; skip_facts; cbn [length] in *;
        [unfold fail; leaf|].
      destruct (N.eqb c2 colon); [|unfold fail; leaf].
      pose proof (skip_ws_length t2).
      destruct (IHs (skip_ws t2) ltac:(lia)) as (r1 & -> & Hr1).
      destruct r1 as [e|[v r2]]; [unfold fail; leaf|]. cbn [progress] in Hr1.
      cbv zeta.
      destruct (skip_ws r2) as [|c3 t3] eqn:Hw2; skip_facts; cbn [length] in *;
        [unfold fail; leaf|].
      destruct (N.eqb c3 rbrace); [unfold yield; leaf|].
      destruct (N.eqb c3 comma); [|unfold fail; leaf].
      pose proof (skip_ws_length t3).
      destruct (IHo (skip_ws t3) (dict_set key v acc) ltac:(lia))
        as (r' & -> & Hr').
      eexists; split; [reflexivity|].
      destruct r' as [|[? ?]]; cbn [progress length] in *; [exact I | lia].
Qed.

(** [decode] gives [scan_once] enough fuel for every text. *)
Lemma decode_has_fuel (s : text) :
  exists r, scan_once (2 * length s + 1) (skip_ws s) = Some r.
Proof.
  pose proof (skip_ws_length s) as Hw.
  destruct (proj1 (scan_fuel (2 * length s + 1)) (skip_ws s) ltac:(lia))
    as (r & Hr & _).
  exists r. exact Hr.
Qed.

(** So the last branch of [decode] is never taken. *)
Lemma decode_eq (s : text) :
  exists r,
    scan_once (2 * length s + 1) (skip_ws s) = Some r /\
    decode s =
    match r with
    | inr (v, rest) =>
        match skip_ws rest with
        | [] => inr v
        | _ :: _ => inl ExtraData
        end
    | inl e => inl e
    end.
Proof.
  destruct (decode_has_fuel s) as [r Hr]. exists r. split; [exact Hr|].
  unfold decode. rewrite Hr. destruct r as [e|[v rest]]; reflexivity.
Qed.

(** What [object_members] yields is an object. *)
Lemma object_members_object :
  forall n s acc v r,
    object_members n s acc = Some (inr (v, r)) -> exists d, v = JObject d.
Proof.
  induction n as [|n IH]; intros s acc v r H; [discriminate H|].
  cbn [object_members] in H. unfold fail, yield in H.
  repeat first
    [ discriminate H
    | injection H as <- <-; eexists; reflexivity
    | apply IH in H; exact H
    | break_match_hyp H; subst; cbv beta iota zeta in H ].
Qed.

(** A text that starts with an opening brace decodes to an object, if it
    decodes at all. *)
Lemma loads_brace_object (t : text) (v : json) :
  json_loads (lbrace :: t) = inr v -> exists d, v = JObject d.
Proof.
  unfold json_loads, decode.
  change (starts_with [65279%N] (lbrace :: t)) with false. cbv iota.
  change (skip_ws (lbrace :: t)) with (lbrace :: t).
  destruct (2 * length (lbrace :: t) + 1) as [|n]; [discriminate|].
  cbn [scan_once].
  change (N.eqb lbrace dquote) with false.
  change (N.eqb lbrace lbrace) with true. cbv iota.
  intros H.
  destruct (skip_ws t) as [|c1 t1].
  - destruct (object_members n [] []) as [[e|[w r]]|] eqn:Ho;
      try discriminate H.
    apply object_members_object in Ho as [d ->].
    destruct (skip_ws r); [|discriminate H]. injection H as <-. eauto.
  - destruct (N.eqb c1 rbrace).
    + unfold yield in H. destruct (skip_ws t1); [|discriminate H].
      injection H as <-. eauto.
    + destruct (object_members n (c1 :: t1) []) as [[e|[w r]]|] eqn:Ho;
        try discriminate H.
      apply object_members_object in Ho as [d ->].
      destruct (skip_ws r); [|discriminate H]. injection H as <-. eauto.
Qed.

End JsonFacts.

(** ** The extraction call on a reply that has a text *)

(** The replies that differ for a client with two retries: the first
    three attempts. *)
Ltac each_reply reply :=
  destruct reply as [?|?|? [?|?|? [?|?|? reply]]].

Section Normalizer.

(** [detect_and_solve_sudoku] on a text that the request receives when
    it is first sent: one request, then either the value the trimmed text
    parses to, or the three diagnostics and [None]. *)
Lemma detect_on_text (response_text : text) (tr : list effect) :
  detect_and_solve_sudoku (Api_content (Some response_text)) tr =
  match json_loads (clean_json_response response_text) with
  | inr result => (Returned result, tr ++ [Request])
  | inl e => (Returned JNull, tr ++ Request :: parse_failure e response_text)
  end.
Proof.
  unfold detect_and_solve_sudoku, try_except, chat_completion, clean, bind,
    st, ret, parse_failure.
  destruct (json_loads (clean_json_response response_text)) as [e|result];
    [|reflexivity].
  rewrite <- !app_assoc. reflexivity.
Qed.

Lemma requests_sent_bounds (reply : api_reply) :
  1 <= requests_sent reply <= 3.
Proof. unfold requests_sent. each_reply reply; cbn; lia. Qed.

(** Without a failure that is retried the request is sent once. *)
Lemma requests_sent_once (reply : api_reply) :
  (forall msg next, reply <> Api_retry msg next) -> requests_sent reply = 1.
Proof.
  destruct reply as [msg|content|msg next]; intros H; try reflexivity.
  destruct (H msg next eq_refl).
Qed.

(** [chat_completion]: the requests are sent, and the call ends as the
    last of them does. *)
Lemma chat_completion_settle (reply : api_reply) (tr : list effect) :
  chat_completion reply tr =
  (match client_result reply with
   | inl msg => Raised (ApiException msg)
   | inr content => Returned content
   end, tr ++ repeat Request (requests_sent reply)).
Proof.
  unfold client_result, requests_sent.
  each_reply reply;
    unfold chat_completion, max_retries, bind, st, raise, ret;
    cbn [resend settle fst snd repeat];
    unfold bind, st, raise, ret;
    rewrite <- ?app_assoc; reflexivity.
Qed.

(** [detect_and_solve_sudoku] on any reply. *)
Lemma detect_on_reply (reply : api_reply) (tr : list effect) :
  detect_and_solve_sudoku reply tr =
  match client_result reply with
  | inl msg =>
      (Returned JNull,
       tr ++ repeat Request (requests_sent reply)
          ++ [St_error (ErrorProcessing (ApiException msg))])
  | inr None =>
      (Returned JNull,
       tr ++ repeat Request (requests_sent reply)
          ++ [St_error (ErrorProcessing TypeError)])
  | inr (Some response_text) =>
      match json_loads (clean_json_response response_text) with
      | inr result =>
          (Returned result, tr ++ repeat Request (requests_sent reply))
      | inl e =>
          (Returned JNull,
           tr ++ repeat Request (requests_sent reply)
              ++ parse_failure e response_text)
      end
  end.
Proof.
  unfold detect_and_solve_sudoku, try_except.
  unfold bind at 1. rewrite chat_completion_settle.
  destruct (client_result reply) as [msg|[response_text|]].
  - unfold bind, st, ret. rewrite <- app_assoc. reflexivity.
  - unfold clean, bind at 1, ret at 1.
    destruct (json_loads (clean_json_response response_text)) as [e|result].
    + unfold bind, st, ret, parse_failure. rewrite <- !app_assoc. reflexivity.
    + reflexivity.
  - unfold clean, bind, raise, st, ret. rewrite <- app_assoc. reflexivity.
Qed.

Lemma strip_fences_no_lbrace (s : text) :
  occurs lbrace s = false -> occurs lbrace (strip_fences s) = false.
Proof.
  intros H. apply occurs_false_In. intros Hin.
  apply (strips_subset (strip_fences_strips s)) in Hin.
  apply occurs_false_In in H. contradiction.
Qed.

Lemma clean_without_lbrace (s : text) :
  occurs lbrace s = false -> clean_json_response s = [].
Proof.
  intros H. rewrite clean_json_response_eq.
  rewrite (from_first_none _ _ (strip_fences_no_lbrace _ H)). reflexivity.
Qed.

(** What is handed to [json.loads] is empty or starts with an opening
    brace, so a result is always an object. *)
Lemma cleaned_text_shape (s : text) :
  clean_json_response s = [] \/ exists t, clean_json_response s = lbrace :: t.
Proof.
  rewrite clean_json_response_eq. unfold from_first.
  induction (strip_fences s) as [|x t IH]; [left; reflexivity|].
  cbn [drop_while]. destruct (Re.is_not lbrace x) eqn:E; [exact IH|].
  unfold Re.is_not in E. apply negb_false_iff, N.eqb_eq in E. subst x.
  cbn [through_last]. destruct (occurs rbrace (lbrace :: t)); eauto.
Qed.

Lemma result_is_object (s : text) (v : json) :
  json_loads (clean_json_response s) = inr v -> exists d, v = JObject d.
Proof.
  destruct (cleaned_text_shape s) as [->|[t ->]]; [discriminate|].
  apply JsonFacts.loads_brace_object.
Qed.


(** C5.  For every reply text with no opening brace, the extraction
    call reports a parse failure ("Expecting value", since nothing is left
    to parse), shows the raw text as it was received, and returns [None]:
    no result is produced. *)
Theorem no_brace_is_reported_with_raw_text
  (response_text : text) (tr : list effect) :
  occurs lbrace response_text = false ->
  detect_and_solve_sudoku (Api_content (Some response_text)) tr =
  (Returned JNull,
   tr ++ [Request;
          St_error (FailedToParse ExpectingValue);
          St_text (lit "Raw response:");
          St_text response_text]).
Proof.
  intros H. rewrite detect_on_text, (clean_without_lbrace _ H). reflexivity.
Qed.

End Normalizer.

(** ** What the extraction call accepts *)

Section Acceptance.

Lemma grid_json_ok (g : grid) : puzzle_grid g -> grid_ok (grid_json g) = true.
Proof.
  intros [Hlen Hrows]. unfold grid_ok, grid_json.
  rewrite length_map, Hlen. cbn [Nat.eqb andb].
  apply forallb_forall. intros v Hv.
  apply in_map_iff in Hv as (row & <- & Hrow).
  rewrite Forall_forall in Hrows. destruct (Hrows row Hrow) as [Hl Hcells].
  unfold row_ok. rewrite length_map, Hl. cbn [Nat.eqb andb].
  apply forallb_forall. intros c Hc.
  apply in_map_iff in Hc as (n & <- & Hn).
  rewrite Forall_forall in Hcells. specialize (Hcells n Hn).
  unfold cell_ok. apply andb_true_intro. split; apply Z.leb_le; lia.
Qed.

Lemma payload_shape (initial solved : grid) :
  puzzle_grid initial -> puzzle_grid solved ->
  shape_invariant (payload initial solved) = true.
Proof.
  intros Hi Hs. unfold shape_invariant, payload.
  change (dict_get (lit "initial_grid") _) with (Some (grid_json initial)).
  change (dict_get (lit "solved_grid") _) with (Some (grid_json solved)).
  cbv beta iota.
  rewrite (grid_json_ok Hi), (grid_json_ok Hs). reflexivity.
Qed.

(** C1, as the code has it.  A reply whose brace-trimmed text
    [json.loads] decodes is returned as the value it decodes to, whatever
    that value is: its keys, its dimensions and its cells are not looked
    at, no deviation is classified, and nothing is shown. *)
Theorem parsed_value_is_returned_unchecked
  (response_text : text) (v : json) (tr : list effect) :
  json_loads (clean_json_response response_text) = inr v ->
  detect_and_solve_sudoku (Api_content (Some response_text)) tr
  = (Returned v, tr ++ [Request]).
Proof. intros H. rewrite detect_on_text, H. reflexivity. Qed.

(** C1 as stated fails: a payload with a cell of 10, a cell of -1, one
    row of two cells and no [solved_grid] is returned as the result, and
    no error is shown. *)
Lemma out_of_range_payload_is_returned :
  detect_and_solve_sudoku
    (Api_content (Some (q "{'initial_grid': [[10, -1]]}"))) []
  = (Returned (JObject [(lit "initial_grid", JArray [JArray [JInt 10; JInt (-1)]])]),
     [Request])
  /\ shape_invariant
       (JObject [(lit "initial_grid", JArray [JArray [JInt 10; JInt (-1)]])])
     = false.
Proof. split; vm_compute; reflexivity. Qed.

(** C2, as the code has it.  A brace-delimited JSON text that holds no
    three backticks in a row and decodes to an object, placed after any
    text with no opening brace and before any text with no closing brace
    (fences included, any number of them), is extracted exactly and the
    extraction call returns that object. *)
Theorem prose_tolerance
  (pre body post : text) (members : list (text * json)) (tr : list effect) :
  occurs lbrace pre = false ->
  occurs rbrace post = false ->
  has_fence (lbrace :: body ++ [rbrace]) = false ->
  json_loads (lbrace :: body ++ [rbrace]) = inr (JObject members) ->
  clean_json_response (pre ++ (lbrace :: body ++ [rbrace]) ++ post)
    = lbrace :: body ++ [rbrace] /\
  detect_and_solve_sudoku
    (Api_content (Some (pre ++ (lbrace :: body ++ [rbrace]) ++ post))) tr
    = (Returned (JObject members), tr ++ [Request]).
Proof.
  intros Hpre Hpost Hnf Hj.
  pose proof (clean_extracts pre body post Hpre Hpost Hnf) as Hc.
  split; [exact Hc|].
  rewrite detect_on_text, Hc, Hj. reflexivity.
Qed.

(** C2 as stated fails: a well-formed object with three backticks inside
    a string, with no prose and no fence around it, does not come back as
    that object. *)
Lemma fence_inside_string_is_lost :
  json_loads (q "{'mark': 'a```b'}")
  = inr (JObject [(lit "mark", JString (lit "a```b"))])
  /\ detect_and_solve_sudoku (Api_content (Some (q "{'mark': 'a```b'}"))) []
     = (Returned (JObject [(lit "mark", JString (lit "ab"))]), [Request]).
Proof. split; vm_compute; reflexivity. Qed.

(** C4, as the code has it.  A result produced by a successful
    extraction is the value the brace-trimmed text decodes to, unchecked;
    and when that value is a pair of 9 by 9 grids of integers between 0
    and 9, the result is that pair and satisfies the shape invariant. *)
Theorem result_is_the_decoded_payload :
  (forall response_text v tr,
      detect_and_solve_sudoku (Api_content (Some response_text)) tr
        = (Returned v, tr ++ [Request]) ->
      json_loads (clean_json_response response_text) = inr v) /\
  (forall response_text initial solved tr,
      json_loads (clean_json_response response_text)
        = inr (payload initial solved) ->
      puzzle_grid initial ->
      puzzle_grid solved ->
      detect_and_solve_sudoku (Api_content (Some response_text)) tr
        = (Returned (payload initial solved), tr ++ [Request]) /\
      shape_invariant (payload initial solved) = true).
Proof.
  split.
  - intros response_text v tr H. rewrite detect_on_text in H.
    destruct (json_loads (clean_json_response response_text)) as [e|w].
    + injection H as _ H. apply app_inv_head in H. discriminate.
    + injection H as ->. reflexivity.
  - intros response_text initial solved tr Hj Hi Hs. split.
    + rewrite detect_on_text, Hj. reflexivity.
    + exact (payload_shape Hi Hs).
Qed.

(** C4 as stated fails: a result is produced whose first grid has one
    row of three cells and whose second grid is empty. *)
Lemma short_grid_is_a_result :
  detect_and_solve_sudoku
    (Api_content (Some (q "{'initial_grid': [[1, 2, 3]], 'solved_grid': []}")))
    []
  = (Returned (JObject [(lit "initial_grid", JArray [JArray [JInt 1; JInt 2; JInt 3]]);
                        (lit "solved_grid", JArray [])]),
     [Request])
  /\ shape_invariant
       (JObject [(lit "initial_grid", JArray [JArray [JInt 1; JInt 2; JInt 3]]);
                 (lit "solved_grid", JArray [])])
     = false.
Proof. split; vm_compute; reflexivity. Qed.

End Acceptance.

(** ** The fence pattern on a fence that follows whitespace *)

(** C6 fails on the code.  A json-tagged fence that follows a line break
    is matched by the second alternative of the pattern, which deletes
    the line break and the three backticks only: the tag stays in the
    text.  (The claim would have the whole marker deleted, giving the
    text with [{] right after the colon.) *)
Lemma tagged_fence_after_newline_keeps_its_tag :
  strip_fences (q "Here is the result:
```json
{'a': 1}
```")
  = q "Here is the result:json
{'a': 1}".
Proof. vm_compute. reflexivity. Qed.

(** ** The solve action *)

Section SolveAction.

Lemma solve_on_text (response_text : text) (tr : list effect) :
  solve_puzzle (Api_content (Some response_text)) tr =
  match json_loads (clean_json_response response_text) with
  | inr result =>
      if truthy result then
        display_grids result (tr ++ [spinner; Request; solved_message])
      else (Returned tt, tr ++ [spinner; Request])
  | inl e => (Returned tt, tr ++ spinner :: Request :: parse_failure e response_text)
  end.
Proof.
  unfold solve_puzzle, bind at 1 2. unfold st at 1.
  rewrite detect_on_text. fold spinner.
  destruct (json_loads (clean_json_response response_text)) as [e|result].
  - cbn [truthy]. unfold ret. rewrite <- app_assoc. reflexivity.
  - destruct (truthy result).
    + unfold bind, st. fold solved_message. rewrite <- !app_assoc. reflexivity.
    + unfold ret. rewrite <- app_assoc. reflexivity.
Qed.

(** The same on any reply. *)
Lemma solve_on_reply (reply : api_reply) (tr : list effect) :
  solve_puzzle reply tr =
  match client_result reply with
  | inl msg =>
      (Returned tt,
       tr ++ spinner :: repeat Request (requests_sent reply)
          ++ [St_error (ErrorProcessing (ApiException msg))])
  | inr None =>
      (Returned tt,
       tr ++ spinner :: repeat Request (requests_sent reply)
          ++ [St_error (ErrorProcessing TypeError)])
  | inr (Some response_text) =>
      match json_loads (clean_json_response response_text) with
      | inr result =>
          if truthy result then
            display_grids result
              (tr ++ spinner :: repeat Request (requests_sent reply)
                  ++ [solved_message])
          else
            (Returned tt, tr ++ spinner :: repeat Request (requests_sent reply))
      | inl e =>
          (Returned tt,
           tr ++ spinner :: repeat Request (requests_sent reply)
              ++ parse_failure e response_text)
      end
  end.
Proof.
  unfold solve_puzzle, bind at 1 2. unfold st at 1.
  rewrite detect_on_reply. fold spinner.
  destruct (client_result reply) as [msg|[response_text|]].
  - cbn [truthy]. unfold ret. rewrite <- app_assoc. reflexivity.
  - destruct (json_loads (clean_json_response response_text)) as [e|result].
    + cbn [truthy]. unfold ret. rewrite <- app_assoc. reflexivity.
    + destruct (truthy result).
      * unfold bind, st. fold solved_message.
        rewrite <- !app_assoc. reflexivity.
      * unfold ret. rewrite <- app_assoc. reflexivity.
  - cbn [truthy]. unfold ret. rewrite <- app_assoc. reflexivity.
Qed.

Lemma all_some_map_some {A B : Type} (f : A -> option B) (g : B -> A) :
  (forall b, f (g b) = Some b) ->
  forall l, all_some (map f (map g l)) = Some l.
Proof.
  intros H. induction l as [|b l IH]; [reflexivity|].
  cbn [map all_some]. rewrite H, IH. reflexivity.
Qed.

Lemma as_grid_json (g : grid) : as_grid (grid_json g) = Some g.
Proof.
  unfold as_grid, grid_json.
  apply (all_some_map_some as_row (fun row => JArray (map JInt row))).
  intros row. unfold as_row.
  apply (all_some_map_some as_int JInt). reflexivity.
Qed.

(** A pair of integer grids is displayed as it is, whatever its shape. *)
Lemma display_payload (initial solved : grid) (tr : list effect) :
  display_grids (payload initial solved) tr
  = (Returned tt, tr ++ shown_grids initial solved).
Proof.
  unfold display_grids.
  change (truthy (payload initial solved)) with true. cbn [negb].
  change (getitem (payload initial solved) (lit "initial_grid"))
    with (@ret json (grid_json initial)).
  change (getitem (payload initial solved) (lit "solved_grid"))
    with (@ret json (grid_json solved)).
  unfold bind, in_column, st, ret. cbv beta iota.
  unfold formatted. rewrite !as_grid_json.
  unfold shown_grids, ret. cbn [app map].
  rewrite <- !app_assoc. reflexivity.
Qed.

(** C8, as the code has it.  Within one solve action, for a picture
    that has been encoded: a request that ends in an exception, a reply
    with no content and a parse failure are each caught in the extraction
    call and turned into one error message (and the raw text, for a parse
    failure); the action then ends normally and shows nothing else.  A
    reply that decodes to a pair of integer grids is announced as solved
    and both grids are displayed as they are.  The client sends a request
    again after a failure that it retries, twice at most: one to three
    requests are made. *)
Theorem failures_are_reported_once :
  (forall reply msg tr,
      client_result reply = inl msg ->
      solve_puzzle reply tr
      = (Returned tt,
         tr ++ spinner :: repeat Request (requests_sent reply)
            ++ [St_error (ErrorProcessing (ApiException msg))])) /\
  (forall reply tr,
      client_result reply = inr None ->
      solve_puzzle reply tr
      = (Returned tt,
         tr ++ spinner :: repeat Request (requests_sent reply)
            ++ [St_error (ErrorProcessing TypeError)])) /\
  (forall reply response_text e tr,
      client_result reply = inr (Some response_text) ->
      json_loads (clean_json_response response_text) = inl e ->
      solve_puzzle reply tr
      = (Returned tt,
         tr ++ spinner :: repeat Request (requests_sent reply)
            ++ [St_error (FailedToParse e);
                St_text (lit "Raw response:"); St_text response_text])) /\
  (forall reply response_text initial solved tr,
      client_result reply = inr (Some response_text) ->
      json_loads (clean_json_response response_text)
        = inr (payload initial solved) ->
      solve_puzzle reply tr
      = (Returned tt,
         tr ++ spinner :: repeat Request (requests_sent reply)
            ++ solved_message :: shown_grids initial solved)) /\
  (forall reply,
      1 <= requests_sent reply <= 3 /\
      (requests_sent reply = 1 <->
       forall msg next, reply <> Api_retry msg next)).
Proof.
  split; [|split; [|split; [|split]]].
  - intros reply msg tr H. rewrite solve_on_reply, H. reflexivity.
  - intros reply tr H. rewrite solve_on_reply, H. reflexivity.
  - intros reply response_text e tr H He.
    rewrite solve_on_reply, H, He. reflexivity.
  - intros reply response_text initial solved tr H Hv.
    rewrite solve_on_reply, H, Hv.
    change (truthy (payload initial solved)) with true. cbv iota.
    rewrite display_payload.
    rewrite <- !app_assoc. cbn [app]. rewrite <- !app_assoc. reflexivity.
  - intros reply. split; [apply requests_sent_bounds|].
    split; [|apply requests_sent_once].
    intros H msg next ->. revert H. unfold requests_sent.
    each_reply next; cbn; discriminate.
Qed.

(** C8 as stated fails: on a reply that decodes to an object without
    [initial_grid], the success message is shown and then [KeyError]
    leaves the solve action uncaught. *)
Lemma missing_key_escapes_the_solve_action :
  solve_puzzle (Api_content (Some (q "{'grid': [[1, 2, 3]]}"))) []
  = (Raised (KeyError (lit "initial_grid")),
     [spinner; Request; solved_message; St_columns 2;
      In_column 1 (St_subheader (lit "Original Puzzle"))]).
Proof. vm_compute. reflexivity. Qed.

(** C10.  When the trimmed text parses to a value that is false as a
    condition (which can only be the empty object), the extraction call
    returns that value, [display_grids] on it does nothing, and the solve
    action ends having shown the spinner only: no grid, no success
    message, no error message and no raw text. *)
Theorem falsy_result_shows_nothing
  (response_text : text) (v : json) (tr : list effect) :
  json_loads (clean_json_response response_text) = inr v ->
  truthy v = false ->
  v = JObject [] /\
  detect_and_solve_sudoku (Api_content (Some response_text)) tr
    = (Returned v, tr ++ [Request]) /\
  display_grids v tr = (Returned tt, tr) /\
  solve_puzzle (Api_content (Some response_text)) tr
    = (Returned tt, tr ++ [spinner; Request]).
Proof.
  intros Hj Hv. repeat split.
  - destruct (result_is_object _ Hj) as [d ->].
    destruct d; [reflexivity | discriminate Hv].
  - rewrite detect_on_text, Hj. reflexivity.
  - unfold display_grids. rewrite Hv. reflexivity.
  - rewrite solve_on_text, Hj, Hv. reflexivity.
Qed.

End SolveAction.

(** ** Replies that hold the compact JSON text of two grids *)

Section CompactReplies.

Lemma digit_cases (P : Z -> Prop) :
  P 0%Z -> P 1%Z -> P 2%Z -> P 3%Z -> P 4%Z -> P 5%Z -> P 6%Z -> P 7%Z ->
  P 8%Z -> P 9%Z -> forall n, digit n -> P n.
Proof.
  intros H0 H1 H2 H3 H4 H5 H6 H7 H8 H9 n [Hlo Hhi].
  rewrite <- (Z2Nat.id n) by lia.
  assert (Hk : Z.to_nat n < 10) by lia. revert Hk.
  generalize (Z.to_nat n). intros k Hk.
  do 10 (destruct k as [|k]; [assumption|]). lia.
Qed.

(** A digit followed by a comma or a closing bracket is read as that
    integer. *)
Lemma scan_digit (f : nat) (n : Z) (x : char) (rest : text) :
  digit n -> closes x -> 1 <= f ->
  Json.scan_once f ([digit_char n] ++ x :: rest)
  = Json.yield (JInt n) (x :: rest).
Proof.
  intros Hn Hx Hf. destruct f as [|f]; [lia|]. revert n Hn.
  apply digit_cases; destruct Hx as [->| ->]; destruct rest; reflexivity.
Qed.

Lemma digit_not_ws (n : Z) (t : text) :
  digit n -> Json.skip_ws ([digit_char n] ++ t) = [digit_char n] ++ t.
Proof. revert n. apply digit_cases; reflexivity. Qed.

Lemma join_head (sep p : text) (ps : list text) (tl : text) :
  exists u, join sep (p :: ps) ++ tl = p ++ u.
Proof.
  destruct ps as [|p2 ps].
  - exists tl. reflexivity.
  - exists (sep ++ join sep (p2 :: ps) ++ tl).
    change (join sep (p :: p2 :: ps)) with (p ++ sep ++ join sep (p2 :: ps)).
    rewrite <- !app_assoc. reflexivity.
Qed.

(** The loop of [_parse_array] over items written without white space
    and separated by commas, for any kind of item that the scanner reads
    with [need] units of fuel. *)
Section Items.
Variable A : Type.
Variable good : A -> Prop.
Variable show : A -> text.
Variable val : A -> json.
Variable need : nat.

Hypothesis scan_item :
  forall a f x rest, good a -> closes x -> need <= f ->
    Json.scan_once f (show a ++ x :: rest) = Json.yield (val a) (x :: rest).
Hypothesis item_not_ws :
  forall a t, good a -> Json.skip_ws (show a ++ t) = show a ++ t.

Lemma items_not_ws (a : A) (items : list A) (tl : text) :
  good a ->
  Json.skip_ws (join [Json.comma] (map show (a :: items)) ++ tl)
  = join [Json.comma] (map show (a :: items)) ++ tl.
Proof.
  intros Ha.
  destruct (join_head [Json.comma] (show a) (map show items) tl) as [u Hu].
  cbn [map]. rewrite Hu. apply item_not_ws, Ha.
Qed.

Lemma array_items_join :
  forall items acc f rest,
    items <> [] -> Forall good items -> length items + need <= f ->
    Json.array_items f
      (join [Json.comma] (map show items) ++ Json.rbracket :: rest) acc
    = Json.yield (JArray (rev acc ++ map val items)) rest.
Proof.
  induction items as [|a items IH]; intros acc f rest Hne Hg Hf;
    [contradiction|].
  inversion Hg as [|? ? Ha Hg']; subst.
  destruct f as [|f]; [cbn [length] in Hf; lia|].
  cbn [length] in Hf. cbn [Json.array_items].
  destruct items as [|a2 items].
  - cbn [map join].
    rewrite scan_item by (try right; try reflexivity; try assumption; lia).
    unfold Json.yield. cbn [rev map]. reflexivity.
  - change (join [Json.comma] (map show (a :: a2 :: items)))
      with (show a ++ [Json.comma]
            ++ join [Json.comma] (map show (a2 :: items))).
    rewrite <- !app_assoc. cbn [app].
    rewrite scan_item by (try left; try reflexivity; try assumption;
                          cbn [length] in Hf; lia).
    unfold Json.yield at 1.
    change (Json.skip_ws (Json.comma :: ?t)) with (Json.comma :: t).
    cbv beta iota.
    change (N.eqb Json.comma Json.rbracket) with false.
    change (N.eqb Json.comma Json.comma) with true. cbv iota.
    inversion Hg' as [|? ? Ha2 ?]; subst.
    rewrite items_not_ws by assumption.
    rewrite IH; [|discriminate|assumption|cbn [length] in *; lia].
    cbn [rev map]. rewrite <- app_assoc. reflexivity.
Qed.

(** An array of at least one item. *)
Lemma scan_array (items : list A) (f : nat) (tl : text) :
  items <> [] -> Forall good items -> length items + need + 1 <= f ->
  (forall a t, good a -> exists c u,
      show a ++ t = c :: u /\ N.eqb c Json.rbracket = false) ->
  Json.scan_once f
    ((Json.lbracket :: join [Json.comma] (map show items)
      ++ [Json.rbracket]) ++ tl)
  = Json.yield (JArray (map val items)) tl.
Proof.
  intros Hne Hg Hf Hhead.
  destruct f as [|f]; [lia|].
  destruct items as [|a items]; [contradiction|].
  cbn [app]. rewrite <- app_assoc. cbn [app].
  cbn [Json.scan_once].
  change (N.eqb Json.lbracket dquote) with false.
  change (N.eqb Json.lbracket lbrace) with false.
  change (N.eqb Json.lbracket Json.lbracket) with true. cbv iota.
  inversion Hg as [|? ? Ha ?]; subst.
  rewrite items_not_ws by assumption.
  rewrite array_items_join by (try discriminate; try assumption; lia).
  destruct (join_head [Json.comma] (show a) (map show items)
              (Json.rbracket :: tl)) as [u Hu].
  destruct (Hhead a u Ha) as (c & u' & Hc & Hnc).
  cbn [map]. rewrite Hu, Hc, Hnc. reflexivity.
Qed.
End Items.

Lemma scan_row (row : list Z) (f : nat) (tl : text) :
  row_good row -> 11 <= f ->
  Json.scan_once f (row_text row ++ tl) = Json.yield (JArray (map JInt row)) tl.
Proof.
  intros [Hl Hd] Hf. unfold row_text.
  apply (@scan_array Z digit (fun n => [digit_char n]) JInt 1).
  - intros a g x rest Ha Hx Hg. apply scan_digit; assumption.
  - intros a t Ha. apply digit_not_ws, Ha.
  - intros ->. discriminate Hl.
  - exact Hd.
  - lia.
  - intros a t Ha. exists (digit_char a), t. split; [reflexivity|].
    revert a Ha. apply digit_cases; reflexivity.
Qed.

Lemma scan_grid (g : grid) (f : nat) (tl : text) :
  puzzle_grid g -> 21 <= f ->
  Json.scan_once f (grid_text g ++ tl) = Json.yield (grid_json g) tl.
Proof.
  intros [Hl Hrows] Hf. unfold grid_text, grid_json.
  apply (@scan_array (list Z) row_good row_text
           (fun row => JArray (map JInt row)) 11).
  - intros a k x rest Ha Hx Hk.
    change (x :: rest) with ([] ++ x :: rest) at 2.
    apply scan_row; assumption.
  - intros a t Ha. reflexivity.
  - intros ->. discriminate Hl.
  - exact Hrows.
  - lia.
  - intros a t Ha. eexists _, _. split; reflexivity.
Qed.

Lemma scan_payload_text (initial solved : grid) (f : nat) (tl : text) :
  puzzle_grid initial -> puzzle_grid solved -> 21 <= f ->
  Json.scan_once (S (S (S f))) (payload_text initial solved ++ tl)
  = Json.yield (payload initial solved) tl.
Proof.
  intros Hi Hs Hf. unfold payload_text.
  rewrite <- !app_assoc. cbn [app].
  change (q "{'initial_grid':" ++ ?t)
    with (lbrace :: dquote :: lit "initial_grid" ++ dquote :: Json.colon :: t).
  change (q ",'solved_grid':" ++ ?t)
    with (Json.comma :: dquote :: lit "solved_grid"
          ++ dquote :: Json.colon :: t).
  cbn [Json.scan_once].
  change (N.eqb lbrace dquote) with false.
  change (N.eqb lbrace lbrace) with true. cbv iota.
  change (Json.skip_ws (dquote :: ?t)) with (dquote :: t).
  cbv iota.
  change (N.eqb dquote rbrace) with false. cbv iota.
  cbn [Json.object_members].
  change (N.eqb dquote dquote) with true. cbv iota.
  change (Json.scanstring (lit "initial_grid" ++ dquote :: ?r) [])
    with (@inr decode_error _ (lit "initial_grid", r)).
  cbv iota beta.
  change (Json.skip_ws (Json.colon :: ?t)) with (Json.colon :: t).
  cbv iota.
  change (Json.skip_ws (grid_text initial ++ ?t)) with (grid_text initial ++ t).
  rewrite (@scan_grid initial (S f)) by (try assumption; lia).
  unfold Json.yield at 1. cbv iota beta.
  change (Json.skip_ws (Json.comma :: ?t)) with (Json.comma :: t).
  cbv iota.
  change (N.eqb Json.comma rbrace) with false.
  change (N.eqb Json.comma Json.comma) with true. cbv iota.
  change (Json.skip_ws (dquote :: ?t)) with (dquote :: t).
  cbv iota.
  change (N.eqb dquote dquote) with true. cbv iota.
  change (Json.scanstring (lit "solved_grid" ++ dquote :: ?r) [])
    with (@inr decode_error _ (lit "solved_grid", r)).
  cbv iota beta.
  change (Json.skip_ws (Json.colon :: ?t)) with (Json.colon :: t).
  cbv iota.
  change (N.eqb Json.colon Json.colon) with true. cbv iota.
  change (Json.skip_ws (grid_text solved ++ ?t)) with (grid_text solved ++ t).
  rewrite (@scan_grid solved f) by assumption.
  reflexivity.
Qed.

(** [json.loads] on the compact text of two grids followed by [tl]. *)
Lemma loads_payload_then (initial solved : grid) (tl : text) :
  puzzle_grid initial -> puzzle_grid solved ->
  json_loads (payload_text initial solved ++ tl) =
  match Json.skip_ws tl with
  | [] => inr (payload initial solved)
  | _ :: _ => inl ExtraData
  end.
Proof.
  intros Hi Hs. unfold json_loads, Json.decode.
  assert (Hhead : exists t, payload_text initial solved ++ tl = lbrace :: t
                            /\ 15 <= length t).
  { unfold payload_text. eexists. split.
    - change (q "{'initial_grid':" ++ ?t) with (lbrace :: q "'initial_grid':" ++ t).
      cbn [app]. reflexivity.
    - rewrite !length_app. change (length (q "'initial_grid':")) with 15. lia. }
  destruct Hhead as (t & Ht & Hlen).
  rewrite Ht. change (starts_with [65279%N] (lbrace :: t)) with false.
  cbv iota. change (Json.skip_ws (lbrace :: t)) with (lbrace :: t).
  cbn [length].
  replace (2 * S (length t) + 1) with (S (S (S (2 * length t)))) by lia.
  rewrite <- Ht, scan_payload_text by (try assumption; lia).
  reflexivity.
Qed.

(** [json.loads] reads the compact text of two grids back as their
    pair. *)
Lemma loads_payload_text (initial solved : grid) :
  puzzle_grid initial -> puzzle_grid solved ->
  json_loads (payload_text initial solved) = inr (payload initial solved).
Proof.
  intros Hi Hs.
  rewrite <- (app_nil_r (payload_text initial solved)).
  rewrite loads_payload_then by assumption. reflexivity.
Qed.

(** The compact text holds no backtick, hence no fence. *)
Lemma no_backtick_no_fence (s : text) :
  occurs backtick s = false -> has_fence s = false.
Proof.
  induction s as [|x t IH]; [reflexivity|].
  unfold occurs. cbn [existsb]. intros H.
  apply orb_false_iff in H as [Hx Ht].
  cbn [has_fence]. rewrite (IH Ht), orb_false_r.
  change (starts_with (lit "```") (x :: t))
    with (N.eqb x backtick && starts_with (lit "``") t).
  rewrite N.eqb_sym, Hx. reflexivity.
Qed.

Lemma occurs_join (a : char) (sep : text) (parts : list text) :
  occurs a sep = false ->
  Forall (fun p => occurs a p = false) parts ->
  occurs a (join sep parts) = false.
Proof.
  intros Hsep Hparts. induction Hparts as [|p ps Hp Hps IH]; [reflexivity|].
  destruct ps as [|p2 ps]; [exact Hp|].
  change (join sep (p :: p2 :: ps)) with (p ++ sep ++ join sep (p2 :: ps)).
  rewrite !occurs_app, Hp, Hsep, IH. reflexivity.
Qed.

Lemma row_text_no_backtick (row : list Z) :
  Forall digit row -> occurs backtick (row_text row) = false.
Proof.
  intros Hd. unfold row_text.
  change (occurs backtick (Json.lbracket :: ?t)) with (occurs backtick t).
  rewrite occurs_app, occurs_join; [reflexivity|reflexivity|].
  apply Forall_map. revert Hd. apply Forall_impl. intros n.
  revert n. apply digit_cases; reflexivity.
Qed.

Lemma grid_text_no_backtick (g : grid) :
  puzzle_grid g -> occurs backtick (grid_text g) = false.
Proof.
  intros [_ Hrows]. unfold grid_text.
  change (occurs backtick (Json.lbracket :: ?t)) with (occurs backtick t).
  rewrite occurs_app, occurs_join; [reflexivity|reflexivity|].
  apply Forall_map. revert Hrows. apply Forall_impl.
  intros row [_ Hd]. apply row_text_no_backtick, Hd.
Qed.

Lemma payload_text_body (initial solved : grid) :
  payload_text initial solved
  = lbrace :: payload_body initial solved ++ [rbrace].
Proof.
  unfold payload_text, payload_body.
  change (q "{'initial_grid':" ++ ?t) with (lbrace :: q "'initial_grid':" ++ t).
  rewrite <- !app_assoc. reflexivity.
Qed.

Lemma payload_text_no_fence (initial solved : grid) :
  puzzle_grid initial -> puzzle_grid solved ->
  has_fence (payload_text initial solved) = false.
Proof.
  intros Hi Hs. apply no_backtick_no_fence. unfold payload_text.
  rewrite !occurs_app, (grid_text_no_backtick Hi), (grid_text_no_backtick Hs).
  reflexivity.
Qed.

(** Every pair of 9 by 9 grids of digits, written compactly and placed
    after any text with no opening brace and before any text with no
    closing brace (fences and prose included), is extracted, decoded to
    that pair, announced as solved and displayed: one request, the
    success message, the two grids. *)
Theorem compact_reply_is_solved
  (pre post : text) (initial solved : grid) (tr : list effect) :
  occurs lbrace pre = false ->
  occurs rbrace post = false ->
  puzzle_grid initial ->
  puzzle_grid solved ->
  clean_json_response (pre ++ payload_text initial solved ++ post)
    = payload_text initial solved /\
  detect_and_solve_sudoku
    (Api_content (Some (pre ++ payload_text initial solved ++ post))) tr
    = (Returned (payload initial solved), tr ++ [Request]) /\
  shape_invariant (payload initial solved) = true /\
  solve_puzzle
    (Api_content (Some (pre ++ payload_text initial solved ++ post))) tr
    = (Returned tt,
       tr ++ spinner :: Request :: solved_message :: shown_grids initial solved).
Proof.
  intros Hpre Hpost Hi Hs.
  pose proof (payload_text_no_fence Hi Hs) as Hnf.
  pose proof (loads_payload_text Hi Hs) as Hj.
  rewrite payload_text_body in *.
  pose proof (clean_extracts pre (payload_body initial solved) post
                Hpre Hpost Hnf) as Hc.
  repeat split.
  - exact Hc.
  - rewrite detect_on_text, Hc, Hj. reflexivity.
  - apply payload_shape; assumption.
  - rewrite solve_on_text, Hc, Hj.
    change (truthy (payload initial solved)) with true. cbv iota.
    rewrite display_payload, <- app_assoc. reflexivity.
Qed.


End CompactReplies.

(** ** format_grid on a 9 by 9 grid of digits *)

Section Renderer.

Lemma length_nine {A : Type} (l : list A) :
  length l = 9 -> exists a b c d e f g h i, l = [a; b; c; d; e; f; g; h; i].
Proof.
  intros H.
  do 9 (destruct l as [|? l]; [discriminate|]).
  destruct l; [|discriminate]. eauto 10.
Qed.

Lemma format_number_small (k : nat) :
  k < 10 -> format_number (Z.of_nat k) = cell (Z.of_nat k).
Proof.
  intros Hk. do 10 (destruct k as [|k]; [reflexivity|]). lia.
Qed.

Lemma format_number_digit (n : Z) :
  (0 <= n <= 9)%Z -> format_number n = cell n.
Proof.
  intros H. rewrite <- (Z2Nat.id n) by lia.
  apply format_number_small. lia.
Qed.

Lemma format_row_digits (row : list Z) :
  length row = 9 -> Forall (fun n => (0 <= n <= 9)%Z) row ->
  format_row row = boxed_line row.
Proof.
  intros Hl Hc.
  destruct (length_nine row Hl) as (a & b & c & d & e & f & g & h & i & ->).
  repeat match goal with
         | H : Forall _ (_ :: _) |- _ => inversion H; subst; clear H
         end.
  unfold format_row, boxed_line. cbn [map].
  rewrite !format_number_digit by assumption. reflexivity.
Qed.

Lemma boxed_line_length (row : list Z) :
  length row = 9 -> length (boxed_line row) = 31.
Proof.
  intros Hl.
  destruct (length_nine row Hl) as (a & b & c & d & e & f & g & h & i & ->).
  reflexivity.
Qed.

(** C9.  For every 9 by 9 grid of integers between 0 and 9,
    [format_grid] yields eleven lines: the nine rows in order, each a
    bar, three cells, a bar, three cells, a bar, three cells and a bar,
    with a line of dashes after the third and after the sixth row and
    none after the ninth; a cell is a space, the glyph (an underscore for
    0, the digit otherwise) and a space; every line is 31 characters
    long. *)
Theorem format_grid_layout (g : grid) :
  puzzle_grid g ->
  exists r1 r2 r3 r4 r5 r6 r7 r8 r9,
    g = [r1; r2; r3; r4; r5; r6; r7; r8; r9] /\
    format_grid g =
      [boxed_line r1; boxed_line r2; boxed_line r3; rule;
       boxed_line r4; boxed_line r5; boxed_line r6; rule;
       boxed_line r7; boxed_line r8; boxed_line r9] /\
    Forall (fun line => length line = 31) (format_grid g).
Proof.
  intros [Hl Hrows].
  destruct (length_nine g Hl)
    as (r1 & r2 & r3 & r4 & r5 & r6 & r7 & r8 & r9 & ->).
  exists r1, r2, r3, r4, r5, r6, r7, r8, r9.
  repeat match goal with
         | H : Forall _ (_ :: _) |- _ => inversion H; subst; clear H
         end.
  repeat match goal with H : _ /\ _ |- _ => destruct H end.
  assert (Hfmt :
    format_grid [r1; r2; r3; r4; r5; r6; r7; r8; r9] =
      [boxed_line r1; boxed_line r2; boxed_line r3; rule;
       boxed_line r4; boxed_line r5; boxed_line r6; rule;
       boxed_line r7; boxed_line r8; boxed_line r9]).
  { unfold format_grid. cbn [format_rows Nat.modulo Nat.eqb Nat.ltb Nat.leb
      andb app hd Nat.divmod fst snd Nat.sub].
    rewrite !format_row_digits by assumption.
    rewrite boxed_line_length by assumption. reflexivity. }
  split; [reflexivity|]. split; [exact Hfmt|].
  rewrite Hfmt.
  repeat (constructor; [first [apply boxed_line_length; assumption
                              | reflexivity]|]).
  constructor.
Qed.

End Renderer.

(** ** What clean_json_response returns, whatever the reply *)

Section CleanedText.

Lemma subtext_refl (a : text) : subtext a a.
Proof. induction a; constructor; assumption. Qed.

Lemma subtext_after (p a b : text) : subtext a b -> subtext a (p ++ b).
Proof. intros H. induction p; [exact H | constructor; assumption]. Qed.

Lemma subtext_trans (a b c : text) :
  subtext a b -> subtext b c -> subtext a c.
Proof.
  intros Hab Hbc. revert a Hab.
  induction Hbc as [|x b c Hbc IH|x b c Hbc IH]; intros a Hab.
  - exact Hab.
  - inversion Hab; subst.
    + constructor. apply IH. assumption.
    + constructor. apply IH. assumption.
  - constructor. apply IH. assumption.
Qed.

Lemma subtext_length (a b : text) : subtext a b -> length a <= length b.
Proof. induction 1; simpl; lia. Qed.

Lemma strips_subtext (s out : text) : strips s out -> subtext out s.
Proof.
  induction 1 as [|s r out Hf _ IH|x t out _ _ IH].
  - constructor.
  - apply fence_match_split in Hf as (a & -> & _).
    apply subtext_after, IH.
  - constructor. exact IH.
Qed.

Lemma drop_while_subtext (p : char -> bool) (s : text) :
  subtext (drop_while p s) s.
Proof.
  induction s as [|x t IH]; [constructor|].
  simpl. destruct (p x); [constructor; exact IH | apply subtext_refl].
Qed.

Lemma through_last_subtext (a : char) (s : text) :
  subtext (through_last a s) s.
Proof.
  induction s as [|x t IH]; [constructor|].
  cbn [through_last]. destruct (occurs a (x :: t)).
  - constructor. exact IH.
  - constructor. clear IH. induction t; constructor; assumption.
Qed.

Lemma through_last_ends (a : char) (s : text) :
  through_last a s = [] \/ exists m, through_last a s = m ++ [a].
Proof.
  induction s as [|x t IH]; [left; reflexivity|].
  cbn [through_last]. destruct (occurs a (x :: t)) eqn:Ho; [|left; reflexivity].
  right. destruct IH as [Hn|[m Hm]].
  - exists []. rewrite Hn. cbn [app]. f_equal.
    rewrite occurs_cons in Ho.
    destruct (N.eqb_spec x a) as [E|E]; [exact E|].
    cbn [orb] in Ho.
    destruct t as [|y t]; [discriminate Ho|].
    cbn [through_last] in Hn. rewrite Ho in Hn. discriminate Hn.
  - exists (x :: m). rewrite Hm. reflexivity.
Qed.

(** What [clean_json_response] returns, whatever the reply: nothing, or
    a text that starts with an opening brace and ends with a closing
    brace; and it is the reply with characters deleted, none added and
    none moved. *)
Theorem cleaned_text_is_braced_subtext (response_text : text) :
  (clean_json_response response_text = [] \/
   exists m, clean_json_response response_text = lbrace :: m ++ [rbrace]) /\
  subtext (clean_json_response response_text) response_text /\
  length (clean_json_response response_text) <= length response_text.
Proof.
  assert (Hsub : subtext (clean_json_response response_text) response_text).
  { rewrite clean_json_response_eq.
    eapply subtext_trans; [apply through_last_subtext|].
    eapply subtext_trans; [apply drop_while_subtext|].
    apply strips_subtext, strip_fences_strips. }
  split; [|split; [exact Hsub | apply subtext_length, Hsub]].
  destruct (cleaned_text_shape response_text) as [H|[t Ht]]; [left; exact H|].
  right. rewrite clean_json_response_eq in *.
  destruct (through_last_ends rbrace
              (from_first lbrace (strip_fences response_text))) as [E|[m E]].
  - rewrite E in Ht. discriminate Ht.
  - rewrite E in Ht. rewrite E.
    destruct m as [|x m].
    + discriminate Ht.
    + injection Ht as -> _. exists m. reflexivity.
Qed.

(** *** Where the fence pattern does nothing *)

Lemma has_fence_starts (s : text) :
  starts_with (lit "```") s = true -> has_fence s = true.
Proof.
  destruct s as [|x t]; [discriminate|].
  cbn [has_fence]. intros ->. reflexivity.
Qed.

Lemma has_fence_drop_while (p : char -> bool) (s : text) :
  has_fence (drop_while p s) = true -> has_fence s = true.
Proof.
  induction s as [|x t IH]; [intros H; exact H|].
  cbn [drop_while]. destruct (p x); [|intros H; exact H].
  intros H. cbn [has_fence]. rewrite (IH H). apply orb_true_r.
Qed.

Lemma fence_match_none (s : text) :
  has_fence s = false -> fence_match s = None.
Proof.
  intros Hnf. unfold fence_match.
  destruct (starts_with (lit "```json") s) eqn:Hj.
  - apply starts_with_json_fence, has_fence_starts in Hj. congruence.
  - destruct (starts_with (lit "```") (drop_while Re.is_space s)) eqn:Hb;
      [|reflexivity].
    apply has_fence_starts, has_fence_drop_while in Hb. congruence.
Qed.

Lemma fence_match_at_backticks (s : text) :
  starts_with (lit "```") s = true -> fence_match s <> None.
Proof.
  intros H. unfold fence_match.
  destruct (starts_with (lit "```json") s); [discriminate|].
  destruct s as [|x t]; [discriminate H|].
  assert (Hx : x = backtick).
  { cbn [starts_with lit] in H. change (lit "```") with [backtick; backtick; backtick] in H.
    cbn [starts_with] in H. apply andb_prop in H as [H _].
    apply N.eqb_eq in H. exact H. }
  subst x. change (drop_while Re.is_space (backtick :: t)) with (backtick :: t).
  rewrite H. discriminate.
Qed.

Lemma strips_without_fence (s out : text) :
  strips s out -> has_fence s = false -> out = s.
Proof.
  induction 1 as [|s r out Hf _ IH|x t out _ _ IH]; intros Hnf.
  - reflexivity.
  - rewrite (fence_match_none _ Hnf) in Hf. discriminate Hf.
  - cbn [has_fence] in Hnf. apply orb_false_elim in Hnf as [_ Hnf].
    rewrite (IH Hnf). reflexivity.
Qed.

Lemma strips_with_fence (s out : text) :
  strips s out -> has_fence s = true -> length out < length s.
Proof.
  induction 1 as [|s r out Hf Hr IH|x t out Hf Ht IH]; intros Hhas.
  - discriminate Hhas.
  - apply fence_match_shorter in Hf.
    apply strips_subtext, subtext_length in Hr. lia.
  - cbn [has_fence] in Hhas.
    destruct (starts_with (lit "```") (x :: t)) eqn:Hb.
    + destruct (fence_match_at_backticks _ Hb Hf).
    + cbn [orb] in Hhas. specialize (IH Hhas). cbn [length]. lia.
Qed.

(** The fence substitution changes a text exactly when the text holds
    three backticks in a row; a reply without them is only trimmed to its
    braces, and what remains is one piece of the reply. *)
Theorem fence_substitution_acts_on_backticks_only (response_text : text) :
  (strip_fences response_text = response_text
   <-> has_fence response_text = false) /\
  (has_fence response_text = false ->
   clean_json_response response_text
   = through_last rbrace (from_first lbrace response_text)).
Proof.
  pose proof (strip_fences_strips response_text) as Hs.
  assert (Hid : has_fence response_text = false ->
                strip_fences response_text = response_text).
  { intros Hnf. exact (strips_without_fence Hs Hnf). }
  split; [split; [|exact Hid]|].
  - intros Heq. destruct (has_fence response_text) eqn:Hf; [|reflexivity].
    pose proof (strips_with_fence Hs Hf) as Hlt. rewrite Heq in Hlt. lia.
  - intros Hnf. rewrite clean_json_response_eq, (Hid Hnf). reflexivity.
Qed.

End CleanedText.

(** ** Text after the object *)

Section TextAfterTheObject.

Lemma strips_fun (s o1 : text) :
  strips s o1 -> forall o2, strips s o2 -> o1 = o2.
Proof.
  induction 1 as [|s r out Hf _ IH|x t out Hf _ IH]; intros o2 H2.
  - inversion H2; subst; [reflexivity|].
    match goal with H : fence_match [] = Some _ |- _ => discriminate H end.
  - inversion H2; subst.
    + discriminate Hf.
    + match goal with H : fence_match _ = Some _ |- _ =>
        rewrite Hf in H; injection H as <- end.
      apply IH. assumption.
    + congruence.
  - inversion H2; subst.
    + congruence.
    + f_equal. apply IH. assumption.
Qed.

(** A character that is neither white space nor part of the marker
    survives the fence substitution. *)
Lemma strips_keeps (s out : text) :
  strips s out ->
  forall c, Re.is_space c = false -> ~ In c (lit "```json") ->
    In c s -> In c out.
Proof.
  induction 1 as [|s r out Hf _ IH|x t out _ _ IH]; intros c Hsp Hm Hin.
  - exact Hin.
  - destruct (fence_match_split _ Hf) as (a & -> & _ & Hchars).
    apply IH; try assumption.
    apply in_app_or in Hin as [Hin|Hin]; [|exact Hin].
    destruct (Hchars c Hin) as [H|H]; [congruence | contradiction].
  - destruct Hin as [<-|Hin]; [left; reflexivity|].
    right. apply IH; assumption.
Qed.

Lemma occurs_true_In (a : char) (s : text) : occurs a s = true <-> In a s.
Proof.
  destruct (occurs a s) eqn:E.
  - split; [|reflexivity]. intros _.
    unfold occurs in E. apply existsb_exists in E as (x & Hx & Heq).
    apply N.eqb_eq in Heq. subst x. exact Hx.
  - split; [discriminate|]. intros Hin.
    apply occurs_false_In in E. contradiction.
Qed.

Lemma strip_fences_keeps_rbrace (s : text) :
  occurs rbrace s = true -> occurs rbrace (strip_fences s) = true.
Proof.
  intros H. apply occurs_true_In. apply occurs_true_In in H.
  apply (strips_keeps (strip_fences_strips s)); [reflexivity| |exact H].
  cbv. intuition discriminate.
Qed.

Lemma through_last_more (a : char) (b p : text) :
  occurs a p = true -> through_last a (b ++ p) = b ++ through_last a p.
Proof.
  intros Hp. induction b as [|x b IH]; [reflexivity|].
  cbn [app through_last].
  change (x :: b ++ p) with ((x :: b) ++ p).
  rewrite occurs_app, Hp, orb_true_r, IH. reflexivity.
Qed.

Lemma through_last_occurs (a : char) (p : text) :
  occurs a p = true -> occurs a (through_last a p) = true.
Proof.
  induction p as [|x p IH]; [discriminate|].
  intros H. cbn [through_last]. rewrite H.
  rewrite occurs_cons in *. destruct (N.eqb x a); [reflexivity|].
  cbn [orb] in *. apply IH, H.
Qed.

(** The text after the object is kept up to its last closing brace. *)
Lemma clean_keeps_later_braces (pre body post : text) :
  occurs lbrace pre = false ->
  occurs rbrace post = true ->
  has_fence (lbrace :: body ++ [rbrace]) = false ->
  clean_json_response (pre ++ (lbrace :: body ++ [rbrace]) ++ post)
  = (lbrace :: body ++ [rbrace]) ++ through_last rbrace (strip_fences post).
Proof.
  intros Hpre Hpost Hnf. rewrite clean_json_response_eq.
  pose proof (strip_fences_strips (pre ++ (lbrace :: body ++ [rbrace]) ++ post))
    as Hs.
  destruct (strips_before Hs pre ((body ++ [rbrace]) ++ post) eq_refl Hpre)
    as (pre' & out2 & -> & Hpre' & Hs2).
  change (lbrace :: (body ++ [rbrace]) ++ post)
    with (((lbrace :: body) ++ [rbrace]) ++ post) in Hs2.
  destruct (strips_inside post (lbrace :: body) Hnf Hs2) as (post' & -> & Hp).
  rewrite (strips_fun Hp (strip_fences_strips post)).
  cbn [app]. rewrite (from_first_app _ _ _ Hpre').
  change (lbrace :: (body ++ [rbrace]) ++ strip_fences post)
    with ((lbrace :: body ++ [rbrace]) ++ strip_fences post).
  apply through_last_more, strip_fences_keeps_rbrace, Hpost.
Qed.

Lemma skip_ws_keeps_rbrace (t : text) :
  occurs rbrace t = true -> Json.skip_ws t <> [].
Proof.
  unfold Json.skip_ws. induction t as [|x t IH]; [discriminate|].
  intros H. cbn [drop_while].
  destruct (Json.is_ws x) eqn:Hw; [|discriminate].
  apply IH. rewrite occurs_cons in H.
  destruct (N.eqb_spec x rbrace) as [->|_]; [discriminate Hw | exact H].
Qed.


(** A compact payload followed by text that holds a closing brace (a
    second object, a brace in the prose) is not accepted: the text is
    kept up to that brace, [json.loads] raises Extra data, the error and
    the raw reply are shown and [None] is returned. *)
Theorem brace_after_the_object_is_extra_data
  (pre post : text) (initial solved : grid) (tr : list effect) :
  occurs lbrace pre = false ->
  occurs rbrace post = true ->
  puzzle_grid initial ->
  puzzle_grid solved ->
  clean_json_response (pre ++ payload_text initial solved ++ post)
    = payload_text initial solved ++ through_last rbrace (strip_fences post) /\
  detect_and_solve_sudoku
    (Api_content (Some (pre ++ payload_text initial solved ++ post))) tr
    = (Returned JNull,
       tr ++ Request
          :: parse_failure ExtraData
               (pre ++ payload_text initial solved ++ post)).
Proof.
  intros Hpre Hpost Hi Hs.
  pose proof (payload_text_no_fence Hi Hs) as Hnf.
  assert (Hc : clean_json_response (pre ++ payload_text initial solved ++ post)
               = payload_text initial solved
                 ++ through_last rbrace (strip_fences post)).
  { rewrite payload_text_body in *.
    exact (clean_keeps_later_braces pre (payload_body initial solved) post
             Hpre Hpost Hnf). }
  split; [exact Hc|].
  rewrite detect_on_text, Hc, loads_payload_then by assumption.
  destruct (Json.skip_ws (through_last rbrace (strip_fences post))) eqn:E;
    [|reflexivity].
  exfalso. revert E. apply skip_ws_keeps_rbrace, through_last_occurs,
    strip_fences_keeps_rbrace, Hpost.
Qed.

End TextAfterTheObject.

(** ** The fence pattern, with and without white space before it *)

Section TaggedFence.

Lemma ends_safely_tail (x y : char) (p : text) :
  ends_safely (x :: y :: p) = ends_safely (y :: p).
Proof. reflexivity. Qed.

Lemma starts_fence_prefix (p rest : text) :
  p <> [] -> ends_safely p = true ->
  starts_with (lit "```") (p ++ rest) = true ->
  starts_with (lit "```") p = true.
Proof.
  intros Hne Hsafe H.
  destruct p as [|x [|y [|z p]]]; [contradiction| | |].
  - cbn [app] in H. change (lit "```") with [backtick; backtick; backtick] in H.
    cbn [starts_with] in H. apply andb_prop in H as [H _].
    apply N.eqb_eq in H. subst x. discriminate Hsafe.
  - cbn [app] in H. change (lit "```") with [backtick; backtick; backtick] in H.
    cbn [starts_with] in H. apply andb_prop in H as [_ H].
    apply andb_prop in H as [H _].
    apply N.eqb_eq in H. subst y. discriminate Hsafe.
  - cbn [app] in H. change (lit "```") with [backtick; backtick; backtick] in *.
    cbn [starts_with] in *. exact H.
Qed.

Lemma space_fence_prefix (rest : text) :
  forall p,
    p <> [] -> ends_safely p = true ->
    starts_with (lit "```") (drop_while Re.is_space (p ++ rest)) = true ->
    has_fence p = true.
Proof.
  induction p as [|x p IH]; intros Hne Hsafe H; [contradiction|].
  cbn [app drop_while] in H.
  destruct (Re.is_space x) eqn:Hx.
  - destruct p as [|y p].
    + cbn in Hsafe. rewrite Hx in Hsafe. discriminate Hsafe.
    + change (has_fence (x :: y :: p))
        with (starts_with (lit "```") (x :: y :: p) || has_fence (y :: p)).
      rewrite IH; [apply orb_true_r|discriminate|exact Hsafe|exact H].
  - apply has_fence_starts.
    apply (@starts_fence_prefix (x :: p) rest); [discriminate|exact Hsafe|].
    exact H.
Qed.

Lemma fence_none_before (p rest : text) :
  p <> [] -> ends_safely p = true -> has_fence p = false ->
  fence_match (p ++ rest) = None.
Proof.
  intros Hne Hsafe Hnf. unfold fence_match.
  destruct (starts_with (lit "```json") (p ++ rest)) eqn:Hj.
  - apply starts_with_json_fence in Hj.
    apply (starts_fence_prefix _ Hne Hsafe), has_fence_starts in Hj.
    congruence.
  - destruct (starts_with (lit "```") (drop_while Re.is_space (p ++ rest)))
      eqn:Hb; [|reflexivity].
    apply (space_fence_prefix _ Hne Hsafe) in Hb. congruence.
Qed.

(** Nothing is deleted in such a text, whatever follows it. *)
Lemma strips_through (rest : text) :
  forall p out,
    ends_safely p = true -> has_fence p = false ->
    strips (p ++ rest) out ->
    exists out', out = p ++ out' /\ strips rest out'.
Proof.
  induction p as [|x p IH]; intros out Hsafe Hnf Hs.
  - exists out. split; [reflexivity|exact Hs].
  - pose proof (@fence_none_before (x :: p) rest ltac:(discriminate)
                  Hsafe Hnf) as Hnone.
    cbn [app] in *.
    inversion Hs; subst; [congruence|].
    assert (Hsafe' : ends_safely p = true).
    { destruct p; [reflexivity|exact Hsafe]. }
    cbn [has_fence] in Hnf. apply orb_false_elim in Hnf as [_ Hnf].
    match goal with H : strips (p ++ rest) _ |- _ =>
      destruct (IH _ Hsafe' Hnf H) as (out' & -> & Ho) end.
    exists out'. split; [reflexivity|exact Ho].
Qed.

Lemma drop_spaces (w t : text) :
  forallb Re.is_space w = true ->
  drop_while Re.is_space (w ++ backtick :: t) = backtick :: t.
Proof.
  induction w as [|x w IH]; intros H; [reflexivity|].
  cbn [forallb] in H. apply andb_prop in H as [Hx Hw].
  cbn [app drop_while]. rewrite Hx. exact (IH Hw).
Qed.

Lemma strips_tag (b out : text) :
  strips b out -> strips (lit "json" ++ b) (lit "json" ++ out).
Proof.
  intros H.
  change (lit "json" ++ b) with (106 :: 115 :: 111 :: 110 :: b)%N.
  change (lit "json" ++ out) with (106 :: 115 :: 111 :: 110 :: out)%N.
  repeat (apply strips_keep; [reflexivity|]). exact H.
Qed.

(** A fence tagged json, after a text with no fence that ends safely and
    a run [w] of white space.  With no white space before it the whole
    marker goes, with the white space after it.  With white space before
    it, that white space and the backticks go and the tag stays. *)
Theorem tagged_fence_and_the_space_before_it (p w b : text) :
  has_fence p = false ->
  ends_safely p = true ->
  forallb Re.is_space w = true ->
  strip_fences (p ++ w ++ lit "```json" ++ b) =
  match w with
  | [] => p ++ strip_fences (drop_while Re.is_space b)
  | _ :: _ => p ++ lit "json" ++ strip_fences b
  end.
Proof.
  intros Hnf Hsafe Hw.
  pose proof (strip_fences_strips (p ++ w ++ lit "```json" ++ b)) as Hs.
  destruct (strips_through _ _ Hsafe Hnf Hs) as (out' & -> & Ho).
  destruct w as [|x w]; f_equal.
  - cbn [app] in Ho.
    apply (strips_fun Ho).
    apply (@strips_fence _ (drop_while Re.is_space b));
      [reflexivity|apply strip_fences_strips].
  - apply (strips_fun Ho).
    apply (@strips_fence _ (lit "json" ++ b)).
    + unfold fence_match.
      assert (Hx : Re.is_space x = true).
      { cbn [forallb] in Hw. apply andb_prop in Hw as [Hx _]. exact Hx. }
      assert (Hj : starts_with (lit "```json")
                     ((x :: w) ++ lit "```json" ++ b) = false).
      { cbn [app lit]. change (lit "```json") with
          (backtick :: backtick :: backtick :: lit "json").
        cbn [starts_with].
        destruct (N.eqb_spec x backtick) as [->|_]; [discriminate Hx|].
        reflexivity. }
      rewrite Hj.
      change (lit "```json" ++ b)
        with (backtick :: backtick :: backtick :: lit "json" ++ b).
      rewrite (drop_spaces _ _ Hw). reflexivity.
    + apply strips_tag, strip_fences_strips.
Qed.

(** A fence without the tag, after the same kind of text and a run [w]
    of white space: the white space before it goes with the backticks,
    what follows them stays, white space included. *)
Theorem plain_fence_and_the_space_before_it (p w b : text) :
  has_fence p = false ->
  ends_safely p = true ->
  forallb Re.is_space w = true ->
  starts_with (lit "json") b = false ->
  strip_fences (p ++ w ++ lit "```" ++ b) = p ++ strip_fences b.
Proof.
  intros Hnf Hsafe Hw Hb.
  pose proof (strip_fences_strips (p ++ w ++ lit "```" ++ b)) as Hs.
  destruct (strips_through _ _ Hsafe Hnf Hs) as (out' & -> & Ho).
  f_equal. apply (strips_fun Ho).
  apply (@strips_fence _ b); [|apply strip_fences_strips].
  unfold fence_match.
  change (lit "```" ++ b) with (backtick :: backtick :: backtick :: b).
  assert (Hj : starts_with (lit "```json")
                 (w ++ backtick :: backtick :: backtick :: b) = false).
  { change (lit "```json")
      with (backtick :: backtick :: backtick :: lit "json").
    destruct w as [|x w].
    - cbn [app starts_with]. rewrite !N.eqb_refl, Hb. reflexivity.
    - cbn [forallb] in Hw. apply andb_prop in Hw as [Hx _].
      cbn [app starts_with].
      destruct (N.eqb_spec x backtick) as [->|_]; [discriminate Hx|].
      reflexivity. }
  rewrite Hj, (drop_spaces _ _ Hw). reflexivity.
Qed.

End TaggedFence.

(** ** display_grids on any object *)

Section DisplayAnyResult.

Lemma dict_get_nonempty (key : text) (d : list (text * json)) (v : json) :
  dict_get key d = Some v -> truthy (JObject d) = true.
Proof. destruct d; [discriminate | reflexivity]. Qed.

Lemma display_object (d : list (text * json)) (tr : list effect) :
  d <> [] ->
  display_grids (JObject d) tr =
  (st (St_columns 2) ;;
   in_column 1
     (st (St_subheader (lit "Original Puzzle")) ;;
      g <- getitem (JObject d) (lit "initial_grid") ;;
      t <- formatted g ;;
      st (St_text t)) ;;
   in_column 2
     (st (St_subheader (lit "Solved Puzzle")) ;;
      g <- getitem (JObject d) (lit "solved_grid") ;;
      t <- formatted g ;;
      st (St_text t))) tr.
Proof.
  intros Hd. unfold display_grids.
  destruct d; [contradiction | reflexivity].
Qed.

(** [display_grids] reads the two keys and nothing else of the object:
    whatever other members it has, and in whatever order, the grids under
    [initial_grid] and [solved_grid] are shown, each in its column, and
    grids of any size are shown as they are. *)
Theorem display_grids_reads_two_keys
  (d : list (text * json)) (initial solved : grid) (tr : list effect) :
  dict_get (lit "initial_grid") d = Some (grid_json initial) ->
  dict_get (lit "solved_grid") d = Some (grid_json solved) ->
  display_grids (JObject d) tr
  = (Returned tt, tr ++ shown_grids initial solved).
Proof.
  intros Hi Hs. rewrite display_object by (intros ->; discriminate Hi).
  unfold getitem. rewrite Hi, Hs.
  unfold bind, in_column, st, ret. cbv beta iota.
  unfold formatted. rewrite !as_grid_json.
  unfold shown_grids, ret. cbn [app map].
  rewrite <- !app_assoc. reflexivity.
Qed.

(** A key that is missing raises [KeyError] where it is read, and what
    was shown before stays: without [initial_grid], the columns and the
    first subheader; without [solved_grid], the whole first column and
    the second subheader. *)
Theorem display_grids_missing_key
  (d : list (text * json)) (tr : list effect) :
  d <> [] ->
  (dict_get (lit "initial_grid") d = None ->
   display_grids (JObject d) tr
   = (Raised (KeyError (lit "initial_grid")), tr ++ display_opening)) /\
  (forall initial,
     dict_get (lit "initial_grid") d = Some (grid_json initial) ->
     dict_get (lit "solved_grid") d = None ->
     display_grids (JObject d) tr
     = (Raised (KeyError (lit "solved_grid")),
        tr ++ display_opening
           ++ [In_column 1 (St_text (join newline (format_grid initial)));
               In_column 2 (St_subheader (lit "Solved Puzzle"))])).
Proof.
  intros Hd. split.
  - intros Hi. rewrite display_object by exact Hd.
    unfold getitem. rewrite Hi.
    unfold bind, in_column, st, ret, raise, display_opening.
    cbv beta iota. cbn [app map]. rewrite <- !app_assoc. reflexivity.
  - intros initial Hi Hs. rewrite display_object by exact Hd.
    unfold getitem. rewrite Hi, Hs.
    unfold bind, in_column, st, ret, raise, display_opening.
    cbv beta iota. unfold formatted. rewrite as_grid_json.
    unfold ret. cbn [app map]. rewrite <- !app_assoc. reflexivity.
Qed.

(** Whatever the object holds, [display_grids] begins with the columns and
    the first subheader and shows nothing but texts and subheaders in the
    columns after them. *)
Lemma display_effects (d : list (text * json)) (tr : list effect) :
  d <> [] ->
  exists o rest,
    display_grids (JObject d) tr = (o, tr ++ display_opening ++ rest) /\
    forallb in_a_column rest = true.
Proof.
  intros Hd. rewrite display_object by exact Hd.
  unfold getitem, formatted, display_opening.
  unfold bind, in_column, st, ret, raise, unmodelled.
  repeat match goal with
         | |- context [dict_get ?k d] => destruct (dict_get k d)
         | |- context [as_grid ?v] => destruct (as_grid v)
         end;
    cbv beta iota; cbn [app map]; rewrite <- ?app_assoc; cbn [app];
    eexists; eexists; (split; [reflexivity|]); reflexivity.
Qed.

(** The solve action, whatever the reply: the spinner, the requests, and
    then one of three things. *)
Lemma solve_puzzle_effects (reply : api_reply) (tr : list effect) :
  exists o shown,
    solve_puzzle reply tr
    = (o, tr ++ spinner :: repeat Request (requests_sent reply) ++ shown) /\
    ((o = Returned tt /\
      exists m rest, shown = St_error m :: rest /\
                     forallb (fun e => match e with St_text _ => true
                                                  | _ => false end) rest = true)
     \/ (o = Returned tt /\ shown = [])
     \/ (exists rest, shown = solved_message :: display_opening ++ rest /\
                      forallb in_a_column rest = true)).
Proof.
  rewrite solve_on_reply.
  destruct (client_result reply) as [msg|[response_text|]].
  - eexists _, _. split; [reflexivity|]. left. split; [reflexivity|].
    eexists _, _. split; reflexivity.
  - destruct (json_loads (clean_json_response response_text)) as [e|v] eqn:Hj.
    + eexists _, _. split; [reflexivity|]. left. split; [reflexivity|].
      unfold parse_failure. eexists _, _. split; reflexivity.
    + destruct (result_is_object _ Hj) as [d ->].
      destruct d as [|kv d].
      * exists (Returned tt), []. rewrite app_nil_r.
        split; [reflexivity|]. right. left. split; reflexivity.
      * change (truthy (JObject (kv :: d))) with true. cbv iota.
        destruct (@display_effects (kv :: d)
                    (tr ++ spinner :: repeat Request (requests_sent reply)
                        ++ [solved_message]))
          as (o & rest & Hd & Hrest); [discriminate|].
        exists o, (solved_message :: display_opening ++ rest).
        split; [|right; right; exists rest; split; [reflexivity|exact Hrest]].
        rewrite Hd. rewrite <- !app_assoc. cbn [app].
        rewrite <- !app_assoc. reflexivity.
  - eexists _, _. split; [reflexivity|]. left. split; [reflexivity|].
    eexists _, _. split; reflexivity.
Qed.

End DisplayAnyResult.

(** ** format_grid on any grid of integers *)

Section RendererAnyGrid.

Lemma format_rows_late :
  forall rest i acc,
    6 <= i -> format_rows i rest acc = acc ++ map format_row rest.
Proof.
  induction rest as [|row rest IH]; intros i acc Hi.
  - cbn [format_rows map]. rewrite app_nil_r. reflexivity.
  - cbn [format_rows].
    assert (Hno : Nat.eqb (i mod 3) 2 && Nat.ltb i 8 = false).
    { destruct (Nat.ltb_spec i 8) as [Hlt|Hge]; [|apply andb_false_r].
      assert (Hc : i = 6 \/ i = 7) by lia.
      destruct Hc as [->| ->]; reflexivity. }
    rewrite Hno. rewrite IH by lia. cbn [map].
    rewrite <- app_assoc. reflexivity.
Qed.

(** [format_grid] on a grid of any number of rows, of any lengths: the
    lines of the rows in order, with a rule after the third row and one
    after the sixth, when the grid has them, and nowhere else; the rule
    is as long as the first line. *)
Theorem format_grid_any (g : grid) :
  format_grid g =
  map format_row (firstn 3 g)
  ++ (if Nat.leb 3 (length g) then [dashes g] else [])
  ++ map format_row (firstn 3 (skipn 3 g))
  ++ (if Nat.leb 6 (length g) then [dashes g] else [])
  ++ map format_row (skipn 6 g).
Proof.
  unfold format_grid, dashes.
  do 6 (destruct g as [|? g]; [reflexivity|]).
  cbn [format_rows Nat.modulo Nat.eqb Nat.ltb Nat.leb andb app hd length
       firstn skipn map].
  rewrite format_rows_late by lia.
  cbn. reflexivity.
Qed.

Lemma slice_firstn {A : Type} (l : list A) (n i k : nat) :
  i + k <= n -> firstn k (skipn i (firstn n l)) = firstn k (skipn i l).
Proof.
  intros H. rewrite skipn_firstn_comm, firstn_firstn.
  f_equal. lia.
Qed.

(** A row is read up to its ninth cell: what comes after is not shown,
    and nothing is raised. *)
Theorem format_row_ignores_cells_after_ninth (row : list Z) :
  format_row row = format_row (firstn 9 row).
Proof.
  unfold format_row, slice. cbn [map Nat.add Nat.sub].
  rewrite <- !firstn_map.
  rewrite !(@slice_firstn _ (map format_number row) 9) by lia.
  reflexivity.
Qed.

Lemma lit_inj (a b : string) : lit a = lit b -> a = b.
Proof.
  unfold lit. revert b. induction a as [|x a IH]; intros [|y b] H;
    try discriminate H; [reflexivity|].
  cbn [list_ascii_of_string map] in H. injection H as Hx Hr.
  f_equal; [|apply IH, Hr].
  rewrite <- (ascii_N_embedding x), <- (ascii_N_embedding y), Hx. reflexivity.
Qed.

Lemma to_int_parses (n : Z) :
  NilZero.int_of_string (NilZero.string_of_int (Z.to_int n)) = Some (Z.to_int n).
Proof.
  apply NilZero.isi; destruct n as [|p|p]; cbn; try discriminate;
    intros [= H]; exact (DecimalPos.Unsigned.to_uint_nonnil p H).
Qed.

Lemma str_of_int_inj (n m : Z) : str_of_int n = str_of_int m -> n = m.
Proof.
  unfold str_of_int. intros H. apply lit_inj in H.
  apply DecimalZ.to_int_inj.
  pose proof (to_int_parses n) as Hn. rewrite H, to_int_parses in Hn.
  injection Hn as Hn. symmetry. exact Hn.
Qed.

Lemma str_of_int_not_blank (n : Z) : str_of_int n <> lit "_".
Proof.
  unfold str_of_int. intros H. apply lit_inj in H.
  pose proof (to_int_parses n) as Hn. rewrite H in Hn. discriminate Hn.
Qed.

Lemma format_number_inner (n : Z) (x : text) :
  format_number n = lit " " ++ x ++ lit " " ->
  (if Z.eqb n 0 then lit "_" else str_of_int n) = x.
Proof.
  unfold format_number. intros H.
  apply app_inv_head, app_inv_tail in H. exact H.
Qed.

(** Only zero is shown as an underscore, and two numbers are shown alike
    only when they are equal. *)
Theorem cells_show_their_number :
  (forall n, format_number n = lit " _ " <-> n = 0%Z) /\
  (forall n m, format_number n = format_number m <-> n = m).
Proof.
  split.
  - intros n. split; [|intros ->; reflexivity].
    intros H. apply (@format_number_inner n (lit "_")) in H.
    destruct (Z.eqb_spec n 0) as [E|E]; [exact E|].
    destruct (@str_of_int_not_blank _ H).
  - intros n m. split; [|intros ->; reflexivity].
    intros H. unfold format_number at 2 in H.
    apply format_number_inner in H.
    destruct (Z.eqb_spec n 0) as [En|En], (Z.eqb_spec m 0) as [Em|Em].
    + congruence.
    + symmetry in H. destruct (@str_of_int_not_blank _ H).
    + destruct (@str_of_int_not_blank _ H).
    + apply str_of_int_inj, H.
Qed.

End RendererAnyGrid.

(** ** One run of the page *)

Section Page.

Lemma appends_ret {A : Type} (a : A) : appends (ret a).
Proof. intros tr. unfold ret. cbn. rewrite app_nil_r. reflexivity. Qed.

Lemma appends_raise {A : Type} (e : exn) : appends (@raise A e).
Proof. intros tr. unfold raise. cbn. rewrite app_nil_r. reflexivity. Qed.

Lemma appends_unmodelled {A : Type} : appends (@unmodelled A).
Proof. intros tr. unfold unmodelled. cbn. rewrite app_nil_r. reflexivity. Qed.

Lemma appends_st (c : effect) : appends (st c).
Proof. intros tr. reflexivity. Qed.

Lemma appends_bind {A B : Type} (c : ui A) (k : A -> ui B) :
  appends c -> (forall a, appends (k a)) -> appends (bind c k).
Proof.
  intros Hc Hk tr. unfold bind. rewrite (Hc tr).
  destruct (c []) as [[a|e|] es]; cbn [fst snd app].
  - rewrite (Hk a (tr ++ es)), (Hk a es). cbn [fst snd].
    rewrite app_assoc. reflexivity.
  - reflexivity.
  - reflexivity.
Qed.

Lemma appends_try_except {A : Type} (body : ui A) (handler : exn -> ui A) :
  appends body -> (forall e, appends (handler e)) ->
  appends (try_except body handler).
Proof.
  intros Hb Hh tr. unfold try_except. rewrite (Hb tr).
  destruct (body []) as [[a|e|] es]; cbn [fst snd app].
  - reflexivity.
  - rewrite (Hh e (tr ++ es)), (Hh e es). cbn [fst snd].
    rewrite app_assoc. reflexivity.
  - reflexivity.
Qed.

Lemma appends_in_column {A : Type} (i : nat) (block : ui A) :
  appends (in_column i block).
Proof.
  intros tr. unfold in_column. destruct (block []) as [o es]. reflexivity.
Qed.

Ltac appends_step :=
  first [ apply appends_bind; [|intro]
        | apply appends_try_except; [|intro]
        | apply appends_in_column
        | apply appends_st
        | apply appends_ret
        | apply appends_raise
        | apply appends_unmodelled ].

Lemma appends_detect (reply : api_reply) :
  appends (detect_and_solve_sudoku reply).
Proof.
  unfold detect_and_solve_sudoku, chat_completion, clean.
  repeat first
    [ appends_step
    | match goal with
      | |- appends (match ?x with _ => _ end) => destruct x
      end ].
Qed.

Lemma appends_display (result : json) : appends (display_grids result).
Proof.
  unfold display_grids.
  destruct (negb (truthy result)); repeat appends_step.
Qed.

Lemma appends_show_result (result : json) : appends (show_result result).
Proof.
  unfold show_result. destruct (truthy result); repeat appends_step.
  apply appends_display.
Qed.

Lemma solving_bind {A B : Type} (c : ui A) (k : A -> ui B) :
  (forall a, appends (k a)) ->
  forall tr,
    (a <- solving c ;; solving (k a))%page tr = solving (bind c k) tr.
Proof.
  intros Hk tr. unfold page_bind, solving, bind.
  destruct (c []) as [[a|e|] es] eqn:Ec; cbn [fst snd].
  - rewrite (Hk a es). destruct (k a []) as [o es'] eqn:Ek. cbn [fst snd].
    rewrite map_app, app_assoc. reflexivity.
  - reflexivity.
  - reflexivity.
Qed.

Lemma solve_puzzle_steps (reply : api_reply) :
  solve_puzzle reply
  = (st (St_spinner (lit "Processing image and solving puzzle...")) ;;
     result <- detect_and_solve_sudoku reply ;;
     show_result result).
Proof. reflexivity. Qed.

Lemma solving_after_spinner (reply : api_reply) (tr : list page_call) :
  solving (result <- detect_and_solve_sudoku reply ;; show_result result)
    (tr ++ [Solving spinner])
  = solving (solve_puzzle reply) tr.
Proof.
  assert (Ha : appends (result <- detect_and_solve_sudoku reply ;;
                        show_result result)).
  { apply appends_bind; [apply appends_detect|].
    intros a. apply appends_show_result. }
  unfold solving.
  change (solve_puzzle reply [])
    with ((result <- detect_and_solve_sudoku reply ;; show_result result)
            [spinner]).
  rewrite (Ha [spinner]).
  destruct ((result <- detect_and_solve_sudoku reply ;; show_result result) [])
    as [o es].
  cbn [fst snd]. rewrite map_app, app_assoc. reflexivity.
Qed.

(** From the picture on. *)
Lemma page_after_picture
  (s : session) (image : picture) (tr : list page_call) :
  (widget (St_image (lit "Uploaded Image") true) tt ;;
   pressed <- widget (St_button (lit "Solve Puzzle")) (button_answer s) ;;
   if pressed then
     solving (st (St_spinner (lit "Processing image and solving puzzle..."))) ;;
     result <- detect_and_solve_sudoku_image image (api_answer s) ;;
     solving (show_result result)
   else page_ret tt)%page tr
  =
  if button_answer s then
    match image with
    | Pillow_raises msg =>
        (Escaped (Pillow_error msg), tr ++ offer ++ [Solving spinner])
    | Pillow_gives _ =>
        solving (solve_puzzle (api_answer s)) (tr ++ offer)
    end
  else (Done tt, tr ++ offer).
Proof.
  unfold page_bind at 1 2. unfold widget. unfold offer.
  destruct (button_answer s).
  - unfold page_bind at 1. unfold solving at 1. unfold st at 1.
    cbn [app map]. fold spinner.
    unfold detect_and_solve_sudoku_image, save_png.
    destruct image as [msg|img_byte_arr].
    + unfold page_bind, escape. rewrite <- !app_assoc. reflexivity.
    + unfold page_bind at 2. unfold page_ret.
      rewrite (@solving_bind _ _ (detect_and_solve_sudoku (api_answer s))
                 show_result appends_show_result).
      rewrite solving_after_spinner. rewrite <- app_assoc. reflexivity.
  - unfold page_ret. rewrite <- app_assoc. reflexivity.
Qed.

(** One run of the page, case by case. *)
Lemma main_eq (s : session) (tr : list page_call) :
  main s tr =
  match chosen s with
  | None => (Done tt, tr ++ front s)
  | Some (Pillow_raises msg) => (Escaped (Pillow_error msg), tr ++ front s)
  | Some (Pillow_gives image) =>
      if button_answer s then
        match image with
        | Pillow_raises msg =>
            (Escaped (Pillow_error msg),
             tr ++ front s ++ offer ++ [Solving spinner])
        | Pillow_gives _ =>
            solving (solve_puzzle (api_answer s)) (tr ++ front s ++ offer)
        end
      else (Done tt, tr ++ front s ++ offer)
  end.
Proof.
  unfold main, capture_image, chosen, front, input_widget, camera_chosen.
  unfold page_bind at 1 2. unfold widget at 1 2.
  destruct (Json.text_eqb (radio_answer s) (lit "Camera"));
    unfold page_bind at 1 2; unfold widget at 1;
    match goal with
    | |- context [match ?a with Some _ => _ | None => _ end] =>
        destruct a as [[msg|image]|]
    end;
    unfold image_open, page_bind at 1, escape, page_ret;
    rewrite <- ?app_assoc; cbn [app];
    try reflexivity;
    (rewrite page_after_picture;
     destruct (button_answer s); try destruct image;
     rewrite <- ?app_assoc; reflexivity).
Qed.

Lemma forallb_none (p r : effect -> bool) (l : list effect) :
  (forall e, p e = true -> r e = false) ->
  forallb p l = true -> existsb r l = false.
Proof.
  intros Hpr. induction l as [|e l IH]; [reflexivity|].
  cbn [forallb existsb]. intros H. apply andb_prop in H as [He Hl].
  rewrite (Hpr e He), (IH Hl). reflexivity.
Qed.

Lemma in_a_column_quiet (e : effect) :
  in_a_column e = true ->
  calls_request e = false /\ is_error e = false /\ is_success e = false.
Proof. destruct e as [| | | | | | |i [| | | | | | |]]; intros H;
         try discriminate H; repeat split. Qed.

Lemma is_text_quiet (e : effect) :
  is_text e = true ->
  calls_request e = false /\ is_error e = false /\ is_success e = false.
Proof. destruct e; intros H; try discriminate H; repeat split. Qed.

Lemma requests_app (a b : list page_call) :
  requests (a ++ b) = requests a + requests b.
Proof. unfold requests. rewrite filter_app, length_app. reflexivity. Qed.

Lemma requests_quiet (l : list effect) :
  existsb calls_request l = false -> requests (map Solving l) = 0.
Proof.
  unfold requests. induction l as [|e l IH]; [reflexivity|].
  cbn [existsb map filter is_request]. intros H.
  apply orb_false_elim in H as [He Hl]. rewrite He. exact (IH Hl).
Qed.

Lemma requests_repeat (n : nat) :
  requests (map Solving (repeat Request n)) = n.
Proof.
  unfold requests. induction n as [|n IH]; [reflexivity|].
  cbn [repeat map filter is_request calls_request length]. rewrite IH.
  reflexivity.
Qed.




(** What the solve action shows after its requests: no request, never
    both an error message and the success message, and the success message
    whenever the action does not end normally. *)
Lemma solve_puzzle_shown (reply : api_reply) :
  exists o shown,
    solve_puzzle reply []
    = (o, spinner :: repeat Request (requests_sent reply) ++ shown) /\
    existsb calls_request shown = false /\
    existsb is_error shown && existsb is_success shown = false /\
    (o <> Returned tt -> existsb is_success shown = true).
Proof.
  destruct (solve_puzzle_effects reply []) as (o & shown & Heq & Hcases).
  exists o, shown. split; [exact Heq|].
  destruct Hcases as [(-> & m & rest & -> & Hrest)
                     |[(-> & ->)|(rest & -> & Hrest)]].
  - assert (Hq : existsb calls_request rest = false /\
                 existsb is_success rest = false).
    { split; apply (@forallb_none is_text); try exact Hrest;
        intros e He; apply is_text_quiet in He; tauto. }
    destruct Hq as [Hq1 Hq2].
    cbn [existsb calls_request is_success is_error orb].
    rewrite Hq1, Hq2. repeat split. intros H. contradiction.
  - repeat split. intros H. contradiction.
  - assert (Hq : existsb calls_request rest = false /\
                 existsb is_error rest = false).
    { split; apply (@forallb_none in_a_column); try exact Hrest;
        intros e He; apply in_a_column_quiet in He; tauto. }
    destruct Hq as [Hq1 Hq2].
    unfold display_opening.
    cbn [existsb calls_request is_success is_error orb app solved_message].
    rewrite Hq1, Hq2. repeat split.
Qed.


(** A run of the page makes a request only when a picture was opened
    and encoded and the button was pressed.  It then sends the request as
    often as the client does: once, or again after a failure that the
    client retries, three times at most. *)
Theorem page_requests_only_when_ready (s : session) (tr : list page_call) :
  exists o shown,
    main s tr = (o, tr ++ front s ++ shown) /\
    requests shown
    = (if ready s then requests_sent (api_answer s) else 0) /\
    requests shown <= 3 /\
    (ready s = true -> 1 <= requests shown).
Proof.
  pose proof (requests_sent_bounds (api_answer s)) as Hn.
  assert (Hgoal :
    exists o shown,
      main s tr = (o, tr ++ front s ++ shown) /\
      requests shown
      = (if ready s then requests_sent (api_answer s) else 0)).
  { rewrite main_eq. unfold ready.
    destruct (chosen s) as [[msg|image]|].
    - exists (Escaped (Pillow_error msg)), [].
      rewrite app_nil_r. split; reflexivity.
    - destruct (button_answer s), image as [msg|png];
        try (eexists _, _; split; reflexivity).
      unfold solving.
      destruct (solve_puzzle_shown (api_answer s))
        as (o & shown & -> & Hreq & _ & _).
      eexists _, (offer ++ map Solving _).
      split; [rewrite <- !app_assoc; reflexivity|].
      rewrite requests_app.
      change (spinner :: repeat Request (requests_sent (api_answer s)) ++ shown)
        with ([spinner] ++ repeat Request (requests_sent (api_answer s))
              ++ shown).
      rewrite !map_app, !requests_app, requests_repeat,
        (requests_quiet _ Hreq).
      cbn. lia.
    - exists (Done tt), []. rewrite app_nil_r. split; reflexivity. }
  destruct Hgoal as (o & shown & Hm & Hr).
  exists o, shown. split; [exact Hm|]. split; [exact Hr|].
  rewrite Hr. destruct (ready s); split; intros; try lia; discriminate.
Qed.

(** Nothing catches an exception of Pillow.  When the chosen file cannot
    be opened the run ends there, after the input widget.  When the
    picture cannot be written as PNG the run ends inside the solve
    action, before its [try]: the spinner is on, no request was made and
    no message is shown. *)
Theorem pillow_exceptions_escape (s : session) (tr : list page_call) :
  (forall msg,
     chosen s = Some (Pillow_raises msg) ->
     main s tr = (Escaped (Pillow_error msg), tr ++ front s)) /\
  (forall msg,
     chosen s = Some (Pillow_gives (Pillow_raises msg)) ->
     button_answer s = true ->
     main s tr
     = (Escaped (Pillow_error msg),
        tr ++ front s ++ offer ++ [Solving spinner])).
Proof.
  split; intros msg Hc; rewrite main_eq, Hc; [reflexivity|].
  intros ->. reflexivity.
Qed.

(** From the upload to the two grids: with a picture that opens and
    encodes, the button pressed, and a reply that holds the compact
    payload of two 9 by 9 grids of digits between prose, the page shows
    its widgets, then the spinner, one request, the success message and
    both grids. *)
Theorem page_shows_the_solution
  (s : session) (png : list N) (pre post : text) (initial solved : grid)
  (tr : list page_call) :
  chosen s = Some (Pillow_gives (Pillow_gives png)) ->
  button_answer s = true ->
  api_answer s
    = Api_content (Some (pre ++ payload_text initial solved ++ post)) ->
  occurs lbrace pre = false ->
  occurs rbrace post = false ->
  puzzle_grid initial ->
  puzzle_grid solved ->
  main s tr
  = (Done tt,
     tr ++ front s ++ offer
        ++ map Solving (spinner :: Request :: solved_message
                        :: shown_grids initial solved)).
Proof.
  intros Hc Hb Ha Hpre Hpost Hi Hs.
  rewrite main_eq, Hc, Hb, Ha. unfold solving.
  pose proof (payload_text_no_fence Hi Hs) as Hnf.
  pose proof (loads_payload_text Hi Hs) as Hj.
  rewrite payload_text_body in *.
  pose proof (clean_extracts pre (payload_body initial solved) post
                Hpre Hpost Hnf) as Hcl.
  rewrite solve_on_text, Hcl, Hj.
  change (truthy (payload initial solved)) with true. cbv iota.
  rewrite display_payload. cbn [app].
  rewrite <- !app_assoc. reflexivity.
Qed.

End Page.

(** ** The theorems at concrete replies *)

Section Witnesses.

Lemma example_grids_ok : puzzle_grid example_initial /\ puzzle_grid example_solved.
Proof.
  split; (split; [reflexivity|]);
    repeat (constructor; [split; [reflexivity|repeat (constructor; [lia|]); constructor]|]);
    constructor.
Defined.

(** The reply in prose ("Sure! Here is the result: ... Hope that
    helps!") is trimmed to the payload and parsed. *)
Lemma prose_tolerance_witness :
  clean_json_response
    (lit "Sure! Here is the result: " ++ (lbrace :: example_body ++ [rbrace])
     ++ lit " Hope that helps!")
    = lbrace :: example_body ++ [rbrace] /\
  detect_and_solve_sudoku
    (Api_content
       (Some (lit "Sure! Here is the result: "
              ++ (lbrace :: example_body ++ [rbrace])
              ++ lit " Hope that helps!"))) []
    = (Returned
         (JObject [(lit "initial_grid", grid_json example_initial);
                   (lit "solved_grid", grid_json example_solved)]),
       [] ++ [Request]).
Proof.
  apply (prose_tolerance (lit "Sure! Here is the result: ") example_body
           (lit " Hope that helps!")); vm_compute; reflexivity.
Defined.


(** The fenced reply yields the two grids, which have the shape. *)
Lemma result_is_the_decoded_payload_witness :
  detect_and_solve_sudoku (Api_content (Some example_reply)) []
    = (Returned (payload example_initial example_solved), [] ++ [Request]) /\
  shape_invariant (payload example_initial example_solved) = true.
Proof.
  apply (proj2 result_is_the_decoded_payload example_reply).
  - vm_compute. reflexivity.
  - exact (proj1 example_grids_ok).
  - exact (proj2 example_grids_ok).
Defined.

Lemma no_brace_is_reported_with_raw_text_witness :
  detect_and_solve_sudoku
    (Api_content (Some (lit "I cannot process this image."))) []
  = (Returned JNull,
     [] ++ [Request;
            St_error (FailedToParse ExpectingValue);
            St_text (lit "Raw response:");
            St_text (lit "I cannot process this image.")]).
Proof.
  apply (no_brace_is_reported_with_raw_text
           (lit "I cannot process this image.") []).
  vm_compute. reflexivity.
Defined.

(** A refused key; three failed connections; a reply without content; a
    reply in prose; and the fenced reply, received when the request is
    sent the second time. *)
Lemma failures_are_reported_once_witness :
  solve_puzzle (Api_raises (lit "Incorrect API key provided")) []
  = (Returned tt,
     [] ++ spinner :: repeat Request 1
        ++ [St_error (ErrorProcessing
                        (ApiException (lit "Incorrect API key provided")))]) /\
  solve_puzzle
    (Api_retry (lit "Connection error.")
       (Api_retry (lit "Connection error.")
          (Api_retry (lit "Request timed out.")
             (Api_content (Some example_reply))))) []
  = (Returned tt,
     [] ++ spinner :: repeat Request 3
        ++ [St_error (ErrorProcessing
                        (ApiException (lit "Request timed out.")))]) /\
  solve_puzzle (Api_content None) []
  = (Returned tt,
     [] ++ spinner :: repeat Request 1
        ++ [St_error (ErrorProcessing TypeError)]) /\
  solve_puzzle (Api_content (Some (lit "I cannot process this image."))) []
  = (Returned tt,
     [] ++ spinner :: repeat Request 1
        ++ [St_error (FailedToParse ExpectingValue);
            St_text (lit "Raw response:");
            St_text (lit "I cannot process this image.")]) /\
  solve_puzzle
    (Api_retry (lit "Rate limit reached") (Api_content (Some example_reply))) []
  = (Returned tt,
     [] ++ spinner :: repeat Request 2
        ++ solved_message :: shown_grids example_initial example_solved).
Proof.
  destruct failures_are_reported_once as (H1 & H2 & H3 & H4 & _).
  split; [exact (H1 (Api_raises (lit "Incorrect API key provided")) _ []
                    eq_refl)|].
  split; [exact (H1 (Api_retry (lit "Connection error.")
                       (Api_retry (lit "Connection error.")
                          (Api_retry (lit "Request timed out.")
                             (Api_content (Some example_reply))))) _ []
                    eq_refl)|].
  split; [exact (H2 (Api_content None) [] eq_refl)|].
  split.
  - apply (H3 (Api_content (Some (lit "I cannot process this image.")))
              (lit "I cannot process this image.") ExpectingValue []);
      reflexivity.
  - apply (H4 (Api_retry (lit "Rate limit reached")
                 (Api_content (Some example_reply)))
              example_reply example_initial example_solved []);
      [reflexivity | vm_compute; reflexivity].
Defined.

Lemma format_grid_layout_witness :
  exists r1 r2 r3 r4 r5 r6 r7 r8 r9,
    example_initial = [r1; r2; r3; r4; r5; r6; r7; r8; r9] /\
    format_grid example_initial =
      [boxed_line r1; boxed_line r2; boxed_line r3; rule;
       boxed_line r4; boxed_line r5; boxed_line r6; rule;
       boxed_line r7; boxed_line r8; boxed_line r9] /\
    Forall (fun line => length line = 31) (format_grid example_initial).
Proof. exact (format_grid_layout (proj1 example_grids_ok)). Defined.

(** The empty object is such a value. *)
Lemma falsy_result_shows_nothing_witness :
  JObject [] = JObject [] /\
  detect_and_solve_sudoku (Api_content (Some (q "{}"))) []
    = (Returned (JObject []), [] ++ [Request]) /\
  display_grids (JObject []) [] = (Returned tt, []) /\
  solve_puzzle (Api_content (Some (q "{}"))) []
    = (Returned tt, [] ++ [spinner; Request]).
Proof.
  apply (@falsy_result_shows_nothing (q "{}") (JObject []) []);
    vm_compute; reflexivity.
Defined.

Lemma compact_reply_is_solved_witness :
  occurs lbrace example_fence_open = false /\
  occurs rbrace example_fence_close = false /\
  puzzle_grid example_initial /\
  puzzle_grid example_solved /\
  payload_text example_initial example_solved
    = lbrace :: example_body ++ [rbrace] /\
  solve_puzzle
    (Api_content
       (Some (example_fence_open
              ++ payload_text example_initial example_solved
              ++ example_fence_close))) []
  = (Returned tt,
     [] ++ spinner :: Request :: solved_message
        :: shown_grids example_initial example_solved).
Proof.
  split; [reflexivity|]. split; [reflexivity|].
  split; [exact (proj1 example_grids_ok)|].
  split; [exact (proj2 example_grids_ok)|].
  split; [reflexivity|].
  exact (proj2 (proj2 (proj2
    (@compact_reply_is_solved example_fence_open example_fence_close
       example_initial example_solved [] eq_refl eq_refl
       (proj1 example_grids_ok) (proj2 example_grids_ok))))).
Defined.

(** A payload of two rows, a string and a fraction among its cells, and
    no [solved_grid]. *)
Lemma parsed_value_is_returned_unchecked_witness :
  detect_and_solve_sudoku
    (Api_content
       (Some (q "{'initial_grid': [[1, 2], ['x', 2.5]], 'rows': 8}"))) []
  = (Returned
       (JObject [(lit "initial_grid",
                  JArray [JArray [JInt 1; JInt 2];
                          JArray [JString (lit "x"); JFloat (lit "2.5")]]);
                 (lit "rows", JInt 8)]),
     [] ++ [Request]).
Proof.
  apply (@parsed_value_is_returned_unchecked
           (q "{'initial_grid': [[1, 2], ['x', 2.5]], 'rows': 8}")).
  vm_compute. reflexivity.
Defined.

(** A reply with a second object after the payload. *)
Lemma brace_after_the_object_is_extra_data_witness :
  detect_and_solve_sudoku
    (Api_content
       (Some (lit "Result: " ++ payload_text example_initial example_solved
              ++ q " or {'initial_grid': []}"))) []
  = (Returned JNull,
     [] ++ Request
        :: parse_failure ExtraData
             (lit "Result: " ++ payload_text example_initial example_solved
              ++ q " or {'initial_grid': []}")).
Proof.
  exact (proj2
    (@brace_after_the_object_is_extra_data (lit "Result: ")
       (q " or {'initial_grid': []}") example_initial example_solved []
       eq_refl eq_refl (proj1 example_grids_ok) (proj2 example_grids_ok))).
Defined.

(** A reply in prose, with no backtick in it. *)
Lemma fence_substitution_acts_on_backticks_only_witness :
  has_fence (q "Sure: {'a': 1} done") = false /\
  strip_fences (q "Sure: {'a': 1} done") = q "Sure: {'a': 1} done" /\
  clean_json_response (q "Sure: {'a': 1} done") = q "{'a': 1}".
Proof.
  split; [reflexivity|]. split.
  - apply (proj1 (@fence_substitution_acts_on_backticks_only
                    (q "Sure: {'a': 1} done"))). reflexivity.
  - reflexivity.
Defined.

(** The tagged fence on a line of its own after a sentence, and at the
    very start of the reply. *)
Lemma tagged_fence_and_the_space_before_it_witness :
  strip_fences
    (lit "Here is the result:" ++ newline ++ lit "```json"
     ++ q "{'a': 1}")
  = lit "Here is the result:" ++ lit "json" ++ q "{'a': 1}".
Proof.
  apply (@tagged_fence_and_the_space_before_it
           (lit "Here is the result:") newline (q "{'a': 1}"));
    reflexivity.
Defined.

(** The closing fence on a line of its own. *)
Lemma plain_fence_and_the_space_before_it_witness :
  strip_fences (q "{'a': 1}" ++ newline ++ lit "```" ++ lit " Done.")
  = q "{'a': 1}" ++ lit " Done.".
Proof.
  apply (@plain_fence_and_the_space_before_it
           (q "{'a': 1}") newline (lit " Done.")); reflexivity.
Defined.

(** An object with a third member, and the two grids in the other
    order. *)
Lemma display_grids_reads_two_keys_witness :
  display_grids
    (JObject [(lit "note", JString (lit "ok"));
              (lit "solved_grid", grid_json example_solved);
              (lit "initial_grid", grid_json example_initial)]) []
  = (Returned tt, [] ++ shown_grids example_initial example_solved).
Proof.
  apply (@display_grids_reads_two_keys
           [(lit "note", JString (lit "ok"));
            (lit "solved_grid", grid_json example_solved);
            (lit "initial_grid", grid_json example_initial)]
           example_initial example_solved []); reflexivity.
Defined.

(** An object with another key only, and one with the first grid only. *)
Lemma display_grids_missing_key_witness :
  display_grids (JObject [(lit "grid", JArray [])]) []
  = (Raised (KeyError (lit "initial_grid")), [] ++ display_opening) /\
  display_grids (JObject [(lit "initial_grid", grid_json example_initial)]) []
  = (Raised (KeyError (lit "solved_grid")),
     [] ++ display_opening
        ++ [In_column 1 (St_text (join newline (format_grid example_initial)));
            In_column 2 (St_subheader (lit "Solved Puzzle"))]).
Proof.
  split.
  - apply (proj1 (@display_grids_missing_key [(lit "grid", JArray [])] []
                    ltac:(discriminate))). reflexivity.
  - apply (proj2 (@display_grids_missing_key
                    [(lit "initial_grid", grid_json example_initial)] []
                    ltac:(discriminate)) example_initial); reflexivity.
Defined.

Lemma pillow_exceptions_escape_witness :
  main (example_session (Pillow_raises (lit "cannot identify image file")) true) []
  = (Escaped (Pillow_error (lit "cannot identify image file")),
     [] ++ front (example_session
                    (Pillow_raises (lit "cannot identify image file")) true)) /\
  main (example_session
          (Pillow_gives (Pillow_raises (lit "image file is truncated"))) true) []
  = (Escaped (Pillow_error (lit "image file is truncated")),
     [] ++ front (example_session
                    (Pillow_gives (Pillow_raises (lit "image file is truncated")))
                    true)
        ++ offer ++ [Solving spinner]).
Proof.
  split.
  - apply (proj1 (pillow_exceptions_escape
                    (example_session
                       (Pillow_raises (lit "cannot identify image file")) true)
                    [])). reflexivity.
  - apply (proj2 (pillow_exceptions_escape
                    (example_session
                       (Pillow_gives (Pillow_raises (lit "image file is truncated")))
                       true)
                    [])); reflexivity.
Defined.

Lemma page_shows_the_solution_witness :
  main (example_session (Pillow_gives (Pillow_gives [137; 80; 78; 71]%N)) true) []
  = (Done tt,
     [] ++ front (example_session
                    (Pillow_gives (Pillow_gives [137; 80; 78; 71]%N)) true)
        ++ offer
        ++ map Solving (spinner :: Request :: solved_message
                        :: shown_grids example_initial example_solved)).
Proof.
  apply (@page_shows_the_solution
           (example_session (Pillow_gives (Pillow_gives [137; 80; 78; 71]%N)) true)
           [137; 80; 78; 71]%N example_fence_open example_fence_close
           example_initial example_solved []);
    first [ reflexivity
          | exact (proj1 example_grids_ok)
          | exact (proj2 example_grids_ok) ].
Defined.

(** A run whose request is answered when it is sent the second time, and
    a run whose reply lacks [initial_grid]. *)
Lemma page_requests_only_when_ready_witness :
  exists o shown,
    main (Session (lit "Upload Image") None
            (Some (Pillow_gives (Pillow_gives [137; 80; 78; 71]%N))) true
            (Api_retry (lit "Rate limit reached")
               (Api_content (Some example_reply)))) []
    = (o, [] ++ front (Session (lit "Upload Image") None
                         (Some (Pillow_gives (Pillow_gives [137; 80; 78; 71]%N)))
                         true
                         (Api_retry (lit "Rate limit reached")
                            (Api_content (Some example_reply))))
             ++ shown) /\
    requests shown = 2.
Proof.
  destruct (page_requests_only_when_ready
              (Session (lit "Upload Image") None
                 (Some (Pillow_gives (Pillow_gives [137; 80; 78; 71]%N))) true
                 (Api_retry (lit "Rate limit reached")
                    (Api_content (Some example_reply)))) [])
    as (o & shown & Hm & Hr & _).
  exists o, shown. split; [exact Hm | exact Hr].
Defined.


End Witnesses.
